(** * sourcerer: manifest pins checked against the latest upstream release

    A shallow embedding of [main.go]: the two precompiled patterns and the
    backtracking matcher they run on, the tolerant version parser
    [mkSemver], the comparator [compareSemver], the repository reference
    parser [parseRepo], the per-entry reconciliation [checkEntry] with its
    loop [checkNewer], manifest discovery [searchForManifests] and
    [validateConfig].

    Go strings are byte strings: a [string] here is the sequence of its
    bytes. Go's [int] and [int64] are modelled by [Z]; the only place where
    the width matters is [strconv.ParseInt] with its 32-bit range check. *)

From Stdlib Require Import ZArith Ascii String Lia.
From stdpp Require Import gmap strings list.

Local Open Scope string_scope.
Local Open Scope list_scope.

(* stdpp keeps [String.append] folded; the proofs below compute with it. *)
#[local] Arguments String.append !s1 s2 : simpl nomatch.

(** ** Byte strings *)

Module Str.

Fixpoint take (n : nat) (s : string) : string :=
  match n, s with
  | S n', String c s' => String c (take n' s')
  | _, _ => ""
  end.

Fixpoint drop (n : nat) (s : string) : string :=
  match n, s with
  | S n', String _ s' => drop n' s'
  | _, _ => s
  end.

(** [strings.HasSuffix]. *)
Definition HasSuffix (s suffix : string) : bool :=
  (String.length suffix <=? String.length s)%nat
  && String.eqb (drop (String.length s - String.length suffix) s) suffix.

Fixpoint all (p : ascii -> bool) (s : string) : bool :=
  match s with
  | "" => true
  | String c s' => p c && all p s'
  end.

Fixpoint any (p : ascii -> bool) (s : string) : bool :=
  match s with
  | "" => false
  | String c s' => p c || any p s'
  end.

Definition nonempty (s : string) : bool :=
  match s with "" => false | _ => true end.

End Str.

Definition byte_val (c : ascii) : N := N_of_ascii c.

Definition isDigit (c : ascii) : bool :=
  ((48 <=? byte_val c) && (byte_val c <=? 57))%N.

Definition notDigit (c : ascii) : bool := negb (isDigit c).

Definition notSlash (c : ascii) : bool := negb (Ascii.eqb c "/").

Definition newline : ascii := ascii_of_nat 10.
Definition tab : ascii := ascii_of_nat 9.

(** ** UTF-8: the width of the rune at the head of a string

    The matcher of Go's [regexp] reads its input rune by rune with
    [utf8.DecodeRuneInString]: a well-formed encoding of 1 to 4 bytes is one
    rune, any other byte is the rune U+FFFD of width 1. Only the width is
    needed here. *)

Module Utf8.

Definition byte_at (s : string) (i : nat) : option N :=
  byte_val <$> String.get i s.

Definition within (lo hi : N) (b : option N) : bool :=
  match b with
  | Some x => ((lo <=? x) && (x <=? hi))%N
  | None => false
  end.

Definition continuation (b : option N) : bool := within 128 191 b.

Definition runeWidth (s : string) : nat :=
  let b0 := byte_at s 0 in
  let b1 := byte_at s 1 in
  let b2 := byte_at s 2 in
  let b3 := byte_at s 3 in
  match b0 with
  | None => 0
  | Some _ =>
    if within 0 127 b0 then 1
    else if within 194 223 b0 then (if continuation b1 then 2 else 1)
    else if within 224 224 b0 then
      (if within 160 191 b1 && continuation b2 then 3 else 1)
    else if within 225 236 b0 || within 238 239 b0 then
      (if continuation b1 && continuation b2 then 3 else 1)
    else if within 237 237 b0 then
      (if within 128 159 b1 && continuation b2 then 3 else 1)
    else if within 240 240 b0 then
      (if within 144 191 b1 && continuation b2 && continuation b3 then 4 else 1)
    else if within 241 243 b0 then
      (if continuation b1 && continuation b2 && continuation b3 then 4 else 1)
    else if within 244 244 b0 then
      (if within 128 143 b1 && continuation b2 && continuation b3 then 4 else 1)
    else 1
  end.

End Utf8.

(** ** Patterns and the matcher

    The fragment of RE2 syntax that [repoRE] and [semverRE] are written in.
    Repetition is only ever applied to a character class there, so the two
    repetition operators take a class. Capturing groups carry their index
    (the rank of their opening parenthesis) and their name ([""] when the
    group is unnamed).

    A class is a set of bytes. The classes of the two patterns (a digit, not
    a digit, not a slash) are told apart by ASCII bytes alone, and every
    byte of a rune of several bytes is above 127: taking such a class rune
    by rune or byte by byte takes the same text. The dot takes one whole
    rune. *)

Inductive regex : Type :=
| Bot                                    (* ^ *)
| Eot                                    (* $ *)
| Chr (c : ascii)                        (* a literal byte *)
| AnyChar                                (* . : any rune but a newline *)
| StarCls (p : ascii -> bool)            (* C* with C a class, greedy *)
| PlusCls (p : ascii -> bool)            (* C+ with C a class, greedy *)
| Cat (r1 r2 : regex)                    (* r1 r2 *)
| Opt (r : regex)                        (* r? , greedy *)
| Group (idx : nat) (name : string) (r : regex).

Declare Scope regex_scope.
Delimit Scope regex_scope with re.
Bind Scope regex_scope with regex.
Infix ":+:" := Cat (at level 60, right associativity) : regex_scope.

(** A literal string of at least one byte. *)
Fixpoint lit (c : ascii) (s : string) : regex :=
  match s with
  | "" => Chr c
  | String c' s' => Cat (Chr c) (lit c' s')
  end.

Module Regexp.

(** The submatches found so far: slot [i] holds the text of group [i],
    [""] while the group has not taken part in the match. *)
Definition captures := list string.

(** What is left to match: the offset reached, the rest of the input and
    the submatches. *)
Definition cont := nat -> string -> captures -> option captures.

(** [C*] from offset [i]: take one more byte of the class when that leads
    to a match, stop here otherwise. *)
Fixpoint star (p : ascii -> bool) (i : nat) (s : string)
         (k : nat -> string -> option captures) : option captures :=
  match s with
  | String c s' =>
      if p c then
        match star p (S i) s' k with
        | Some m => Some m
        | None => k i s
        end
      else k i s
  | "" => k i s
  end.

(** The backtracking matcher, in continuation-passing style: alternatives
    are tried in the order of preference of Go's leftmost-first rule (a
    greedy operator first tries to take more). *)
Fixpoint run (r : regex) (i : nat) (s : string) (caps : captures)
         (k : cont) : option captures :=
  match r with
  | Bot => if (i =? 0)%nat then k i s caps else None
  | Eot => match s with "" => k i s caps | String _ _ => None end
  | Chr c =>
      match s with
      | String c' s' => if Ascii.eqb c c' then k (S i) s' caps else None
      | "" => None
      end
  | AnyChar =>
      match s with
      | String c _ =>
          if Ascii.eqb c newline then None
          else
            let w := Utf8.runeWidth s in
            k (i + w)%nat (Str.drop w s) caps
      | "" => None
      end
  | StarCls p => star p i s (fun j t => k j t caps)
  | PlusCls p =>
      match s with
      | String c s' =>
          if p c then star p (S i) s' (fun j t => k j t caps) else None
      | "" => None
      end
  | Cat r1 r2 => run r1 i s caps (fun j t caps' => run r2 j t caps' k)
  | Opt r' =>
      match run r' i s caps k with
      | Some m => Some m
      | None => k i s caps
      end
  | Group idx _ r' =>
      run r' i s caps
          (fun j t caps' => k j t (<[idx := Str.take (j - i) s]> caps'))
  end.

(** The groups of a pattern, as (index, name), in the order of their
    opening parentheses. *)
Fixpoint groups (r : regex) : list (nat * string) :=
  match r with
  | Cat r1 r2 => groups r1 ++ groups r2
  | Opt r' => groups r'
  | Group idx name r' => (idx, name) :: groups r'
  | _ => []
  end.

Definition NumSubexp (r : regex) : nat := length (groups r).

(** [SubexpNames]: the name of every group by index, slot 0
    (the whole match) being [""]. *)
Definition SubexpNames (r : regex) : list string := "" :: (snd <$> groups r).

(** The unanchored search: the first offset, from the left, at which the
    pattern matches; the offsets tried are the starts of the runes. *)
Fixpoint search (fuel : nat) (r : regex) (i : nat) (s : string)
  : option captures :=
  match fuel with
  | O => None
  | S fuel' =>
      match run r i s (replicate (S (NumSubexp r)) "")
                (fun j _ caps => Some (<[0%nat := Str.take (j - i) s]> caps)) with
      | Some m => Some m
      | None =>
          match s with
          | "" => None
          | String _ _ =>
              let w := Utf8.runeWidth s in
              search fuel' r (i + w)%nat (Str.drop w s)
          end
      end
  end.

(** [FindStringSubmatch]: the whole match followed by the text
    of every group, or the nil slice when the pattern does not match. *)
Definition FindStringSubmatch (r : regex) (s : string) : list string :=
  match search (S (String.length s)) r 0 s with
  | Some m => m
  | None => []
  end.

End Regexp.

(** ** The patterns of the program *)

(** [repoRE], written  ^github.com/( [^/]* )/( [^/]* )  in the source
    (blanks added here). *)
Definition repoRE : regex :=
  (Bot :+: lit "g" "ithub" :+: AnyChar :+: lit "c" "om/" :+:
   Group 1 "" (StarCls notSlash) :+: Chr "/" :+:
   Group 2 "" (StarCls notSlash))%re.

(** [semverRE], written in the source (blanks added here)
    ^\D* (?P<first>( \d+ )) ( \.(?P<second> \d+ ) )? ( \.(?P<third> \d+ ) )?
    ( \.(?P<fourth> \d+ ) )? ( \.(?P<fifth> \d+ ) )? $ *)
Definition semverRE : regex :=
  (Bot :+: StarCls notDigit :+:
   Group 1 "first" (Group 2 "" (PlusCls isDigit)) :+:
   Opt (Group 3 "" (Chr "." :+: Group 4 "second" (PlusCls isDigit))) :+:
   Opt (Group 5 "" (Chr "." :+: Group 6 "third" (PlusCls isDigit))) :+:
   Opt (Group 7 "" (Chr "." :+: Group 8 "fourth" (PlusCls isDigit))) :+:
   Opt (Group 9 "" (Chr "." :+: Group 10 "fifth" (PlusCls isDigit))) :+:
   Eot)%re.

Definition manifestName : string := "SOURCES".


(** ** Errors

    The errors of the program are built with [fmt.Errorf] and [errors.New];
    each constructor stands for one call site and keeps the values that the
    format string prints. *)

(** The two failures of [strconv.ParseInt]. *)
Inductive NumError : Type :=
| ErrSyntax
| ErrRange.

#[warnings="-register-all"]
Inductive error : Type :=
| ErrParsePart (s : string) (e : NumError)
    (* "could not parse %s as semver\n%v" *)
| ErrNegativePart (s : string)
    (* "could not parse %s as semver, one part was < 0" *)
| ErrCompare (err1 err2 : option error)
    (* "Error comparing semver:\n%v\n%v" *)
| ErrParseRepo (repo : string) (found : list string)
    (* "Could not parse: %s, found: %v" *)
| ErrRetrieve (repo : string) (cause : string)
    (* "There was an error retrieving the latest release for %s\n%v" *)
| ErrReadBody (url : string) (cause : string)
    (* "unable to read body of url %s\n%v" *)
| ErrParseBody (url : string) (cause : string) (body : string)
    (* "unable to parse body of url %s\n%v\n body:\n%s" *)
| ErrUrlAndRepo
    (* "cannot define a url and a repo; pick one" *)
| ErrRepoWithoutTag.
    (* "when defining a repo you must also define a tag to pull" *)

(** ** strconv.ParseInt(s, 10, 32)

    The contract of the library function for base 10 and bit size 32: an
    optional sign, then one or more decimal digits and nothing else; the
    value must lie in the range of a signed 32-bit integer. *)

Definition digit_val (c : ascii) : Z := Z.of_N (byte_val c) - 48.

(** The value of a string of decimal digits read after the digits of value
    [acc]; [None] when a byte is not a digit. *)
Fixpoint digits_from (acc : Z) (s : string) : option Z :=
  match s with
  | "" => Some acc
  | String c s' =>
      if isDigit c then digits_from (10 * acc + digit_val c) s' else None
  end.

Definition ParseUint (s : string) : option Z :=
  match s with
  | "" => None
  | String _ _ => digits_from 0 s
  end.

Definition ParseInt (s : string) : NumError + Z :=
  match s with
  | "" => inl ErrSyntax
  | String c rest =>
      let neg := Ascii.eqb c "-" in
      let body := if Ascii.eqb c "+" || neg then rest else s in
      match ParseUint body with
      | None => inl ErrSyntax
      | Some un =>
          let cutoff := (2 ^ 31)%Z in
          if negb neg && (cutoff <=? un)%Z then inl ErrRange
          else if neg && (cutoff <? un)%Z then inl ErrRange
          else inr (if neg then (- un)%Z else un)
      end
  end.

(** ** mkSemver *)

(** The loop of [mkSemver] over [names], which starts at index [i]; [m] is
    the submatch slice and [out] the components collected so far. Go returns
    the slice built so far together with the error. *)
Fixpoint mkSemver_loop (s : string) (m : list string) (names : list string)
         (i : nat) (out : list Z) : list Z * option error :=
  match names with
  | [] => (out, None)
  | n :: names' =>
      if Str.nonempty n && (i <? length m)%nat && Str.nonempty (nth i m "")
      then
        match ParseInt (nth i m "") with
        | inl err => (out, Some (ErrParsePart s err))
        | inr part =>
            if (part <? 0)%Z then (out, Some (ErrNegativePart s))
            else mkSemver_loop s m names' (S i) (out ++ [part])
        end
      else mkSemver_loop s m names' (S i) out
  end.

Definition mkSemver (s : string) : list Z * option error :=
  let names := Regexp.SubexpNames semverRE in
  let m := Regexp.FindStringSubmatch semverRE s in
  mkSemver_loop s m names 0 [].

(** ** compareSemver *)

(** The loop over the longer vector [as_], from index [i]; [bs] is read by
    index, and past its end the component is 0. *)
Fixpoint compare_loop (as_ : list Z) (i : nat) (bs : list Z) : Z :=
  match as_ with
  | [] => 0
  | a :: as' =>
      let b := if (length bs <=? i)%nat then 0%Z else nth i bs 0%Z in
      if (a >? b)%Z then 1
      else if (a <? b)%Z then -1
      else compare_loop as' (S i) bs
  end.

(** The comparison once both strings are parsed. *)
Definition compareVectors (xs ys : list Z) : Z :=
  let '(as_, bs) :=
    if (length ys <=? length xs)%nat then (xs, ys) else (ys, xs) in
  compare_loop as_ 0 bs.

Definition compareSemver (x y : string) : Z * option error :=
  let '(xs, err1) := mkSemver x in
  let '(ys, err2) := mkSemver y in
  match err1, err2 with
  | None, None => (compareVectors xs ys, None)
  | _, _ => (0%Z, Some (ErrCompare err1 err2))
  end.

(** ** parseRepo *)

Definition parseRepo (repo : string) : error + (string * string) :=
  let match_ := Regexp.FindStringSubmatch repoRE repo in
  if negb (length match_ =? 3)%nat then inl (ErrParseRepo repo match_)
  else inr (nth 1 match_ "", nth 2 match_ "").

(** ** Manifests *)

Record SourceEntry : Type := mkEntry {
  Repo : string;
  Tag : string;
  URL : string
}.

Record Config : Type := mkConfig {
  Sources : list SourceEntry
}.

(** ** validateConfig *)

Fixpoint validateConfig_loop (es : list SourceEntry) : option error :=
  match es with
  | [] => None
  | e :: es' =>
      if Str.nonempty (URL e) && Str.nonempty (Repo e) then Some ErrUrlAndRepo
      else if Str.nonempty (Repo e) && negb (Str.nonempty (Tag e))
      then Some ErrRepoWithoutTag
      else validateConfig_loop es'
  end.

Definition validateConfig (config : Config) : option error :=
  validateConfig_loop (Sources config).

(** ** Messages

    A message is the text that [fmt.Sprintf] builds from the format string
    and its arguments, with the colour that the [color] package wraps it in
    ([Plain] for the one message built with [fmt.Sprintf] alone). *)

Inductive Colour : Type := Plain | Yellow | Red | Green.

Record Msg : Type := mkMsg {
  colour : Colour;
  text : string
}.

Definition nl : string := String newline "".
Definition tabs3 : string := String tab (String tab (String tab "")).

Definition msgRawURL (url : string) : Msg :=
  mkMsg Plain ("Raw url specified, cannot check for currency: " +:+ url).

Definition msgUndefined (repo : string) : Msg :=
  mkMsg Yellow
        ("Unable to check currency, latest release undefined for " +:+ repo).

Definition msgNewer (repo have latest : string) : Msg :=
  mkMsg Red
        ("There is a newer version of: " +:+ repo +:+ nl +:+
         tabs3 +:+ "have: " +:+ have +:+ nl +:+
         tabs3 +:+ "latest: " +:+ latest).

Definition msgUpToDate (repo : string) : Msg :=
  mkMsg Green ("Up to date: " +:+ repo).

(** ** The release lookup

    [checkEntry] asks the outside world for the latest release with
    [http.Get], reads the body with [ioutil.ReadAll] and decodes it with
    [json.Unmarshal] into a [map[string]*json.RawMessage]. These three
    library calls are one step of the model; its outcome is the first
    failure, or the decoded map. In the map a key is bound to [None] when
    its JSON value is null (a nil pointer) and to [Some raw] otherwise, [raw]
    being the text of the value. *)

Inductive LookupOutcome : Type :=
| GetFailed (cause : string)
| ReadFailed (cause : string)
| DecodeFailed (cause : string) (body : string)
| Decoded (gitObj : gmap string (option string)).

(** Indexing a Go map: the zero value, a nil pointer, for a missing key. *)
Definition map_index (gitObj : gmap string (option string)) (key : string)
  : option string :=
  default None (gitObj !! key).

(** [json.Unmarshal(data, v)] where [v] is a string passed by value, as on
    the line that reads the release name. The library rejects a target that
    is not a pointer (InvalidUnmarshalError), and an argument passed by value
    cannot be written to: the result is the caller's variable after the
    call, unchanged. The error is overwritten by the next assignment. *)
Definition json_Unmarshal_by_value (data : string) (v : string) : string := v.

(** What the program does to the outside world, in order; the comparisons
    are recorded too, so that a run shows whether one took place. *)
Inductive Event : Type :=
| EvGet (url : string)
| EvCompare (x y : string).

Definition releasesURL (owner gitrepo : string) : string :=
  "https://api.github.com/repos/" +:+ owner +:+ "/" +:+ gitrepo +:+
  "/releases/latest".

Section Reconciliation.

(** The outside world: the outcome of a lookup, which may depend on
    everything that happened before it. *)
Variable lookup : list Event -> string -> LookupOutcome.

Definition checkEntry (e : SourceEntry) (log : list Event)
  : (error + Msg) * list Event :=
  if Str.nonempty (URL e) then (inr (msgRawURL (URL e)), log)
  else
    match parseRepo (Repo e) with
    | inl err => (inl err, log)
    | inr (owner, gitrepo) =>
        let url := releasesURL owner gitrepo in
        let log1 := (log ++ [EvGet url])%list in
        match lookup log url with
        | GetFailed cause => (inl (ErrRetrieve (Repo e) cause), log1)
        | ReadFailed cause => (inl (ErrReadBody (URL e) cause), log1)
        | DecodeFailed cause body =>
            (inl (ErrParseBody (URL e) cause body), log1)
        | Decoded gitObj =>
            match map_index gitObj "name" with
            | None => (inr (msgUndefined (Repo e)), log1)
            | Some raw =>
                let tag := json_Unmarshal_by_value raw "" in
                let log2 := (log1 ++ [EvCompare (Tag e) tag])%list in
                match compareSemver (Tag e) tag with
                | (_, Some err) => (inl err, log2)
                | (rel, None) =>
                    if (rel <? 0)%Z
                    then (inr (msgNewer (Repo e) (Tag e) tag), log2)
                    else (inr (msgUpToDate (Repo e)), log2)
                end
            end
        end
    end.

(** The loop of [checkNewer] over the entries left, [msgs] being the
    messages appended so far. *)
Fixpoint checkNewer_loop (es : list SourceEntry) (msgs : list Msg)
         (log : list Event) : (list Msg * option error) * list Event :=
  match es with
  | [] => ((msgs, None), log)
  | e :: es' =>
      match checkEntry e log with
      | (inl err, log') => ((msgs, Some err), log')
      | (inr m, log') => checkNewer_loop es' (msgs ++ [m]) log'
      end
  end.

Definition checkNewer (config : Config) (log : list Event)
  : (list Msg * option error) * list Event :=
  checkNewer_loop (Sources config) [] log.

End Reconciliation.

(** ** searchForManifests

    [filepath.Walk] calls [visit] once per file or directory it reaches, with
    the path, the file information ([None] for the nil that comes with a
    failed lstat of the root) and the error it met, if any. A walk is given
    by the calls it makes for as long as [visit] returns nil. *)

Record FileInfo : Type := mkInfo { IsDir : bool }.

Record Visit : Type := mkVisit {
  path : string;
  info : option FileInfo;
  walkErr : option string
}.

(** The closure [visit]: [None] is the panic of calling [IsDir] on nil;
    otherwise the slice after the call and the error returned to the walk. *)
Definition visit (v : Visit) (manifests : list string)
  : option (list string * option string) :=
  if Str.HasSuffix (path v) manifestName then
    match info v with
    | None => None
    | Some f =>
        if negb (IsDir f) then Some (manifests ++ [path v], walkErr v)
        else Some (manifests, walkErr v)
    end
  else Some (manifests, walkErr v).

(** The walk stops at the first call that returns an error and hands it
    back; [searchForManifests] then panics ([None]). *)
Fixpoint walk (visits : list Visit) (manifests : list string)
  : option (list string) :=
  match visits with
  | [] => Some manifests
  | v :: rest =>
      match visit v manifests with
      | None => None
      | Some (manifests', Some _) => None
      | Some (manifests', None) => walk rest manifests'
      end
  end.

Definition searchForManifests (visits : list Visit) : option (list string) :=
  walk visits [].

(** [filepath.Base] (with [/] as the separator): the last element of a
    path, trailing slashes removed. Not called by the program; it is what
    "base name" means. *)
Module Filepath.

Definition isSlash (c : ascii) : bool := Ascii.eqb c "/".

Fixpoint stripTrailing (s : string) : string :=
  match s with
  | "" => ""
  | String c s' => if Str.all isSlash s then "" else String c (stripTrailing s')
  end.

Fixpoint lastElement (s : string) : string :=
  match s with
  | "" => ""
  | String c s' =>
      if Str.any isSlash s' then lastElement s'
      else if isSlash c then s' else s
  end.

Definition Base (p : string) : string :=
  match p with
  | "" => "."
  | String _ _ =>
      match lastElement (stripTrailing p) with
      | "" => "/"
      | String c s => String c s
      end
  end.

End Filepath.

(** ** What a pattern can match, read off its syntax *)

Module Syntax.

Definition all_bytes : list ascii := ascii_of_nat <$> seq 0 256.

(** Every byte of the class [p] is in the class [q]. *)
Definition sub_class (p q : ascii -> bool) : bool :=
  forallb (fun c => implb (p c) (q c)) all_bytes.

(** Whatever [r] matches is made of bytes of the class [q] only. *)
Fixpoint only (q : ascii -> bool) (r : regex) : bool :=
  match r with
  | Bot | Eot => true
  | Chr c => q c
  | AnyChar => false
  | StarCls p | PlusCls p => sub_class p q
  | Cat r1 r2 => only q r1 && only q r2
  | Opt r' | Group _ _ r' => only q r'
  end.

(** Whatever [r] matches holds a byte of the class [q]. *)
Fixpoint has (q : ascii -> bool) (r : regex) : bool :=
  match r with
  | Chr c => q c
  | PlusCls p => sub_class p q
  | Cat r1 r2 => has q r1 || has q r2
  | Group _ _ r' => has q r'
  | _ => false
  end.

(** A condition that every text matched by [r] meets: its decomposition
    along the syntax of [r]. *)
Fixpoint shape (r : regex) (u : string) : Prop :=
  match r with
  | Bot | Eot => u = ""
  | Chr c => u = String c ""
  | AnyChar => True
  | StarCls p => Str.all p u = true
  | PlusCls p => Str.nonempty u = true /\ Str.all p u = true
  | Cat r1 r2 => exists u1 u2, u = u1 +:+ u2 /\ shape r1 u1 /\ shape r2 u2
  | Opt r' => u = "" \/ shape r' u
  | Group _ _ r' => shape r' u
  end.

(** The pattern starts with [^]; the pattern ends with [$]. *)
Fixpoint begins (r : regex) : bool :=
  match r with
  | Bot => true
  | Cat r1 _ => begins r1
  | Group _ _ r' => begins r'
  | _ => false
  end.

Fixpoint ends (r : regex) : bool :=
  match r with
  | Eot => true
  | Cat _ r2 => ends r2
  | Group _ _ r' => ends r'
  | _ => false
  end.

(** Every group whose slot has a name in [names] matches bytes of the
    class [q] only. *)
Fixpoint named_only (names : list string) (q : ascii -> bool) (r : regex)
  : bool :=
  match r with
  | Cat r1 r2 => named_only names q r1 && named_only names q r2
  | Opt r' => named_only names q r'
  | Group idx _ r' =>
      (negb (Str.nonempty (nth idx names "")) || only q r')
      && named_only names q r'
  | _ => true
  end.

(** The indices of the named groups. *)
Definition named_groups (r : regex) : list nat :=
  fst <$> List.filter (fun g => Str.nonempty (snd g)) (Regexp.groups r).

(** The submatches in the named slots are made of bytes of [q] only. *)
Definition named_slots (names : list string) (q : ascii -> bool)
           (caps : list string) : Prop :=
  forall j, Str.nonempty (nth j names "") = true ->
            Str.all q (nth j caps "") = true.

(** [t] does not start with a byte of the class [p]. *)
Definition starts_outside (p : ascii -> bool) (t : string) : bool :=
  match t with
  | "" => true
  | String c _ => negb (p c)
  end.

(** [first_match r i u t caps caps']: at offset [i], in front of the rest
    [t], the text [u] is what the matcher makes [r] take at its first
    attempt, leaving the submatches [caps']. *)
Inductive first_match
  : regex -> nat -> string -> string -> list string -> list string -> Prop :=
| fm_bot t caps : first_match Bot 0 "" t caps caps
| fm_eot i caps : first_match Eot i "" "" caps caps
| fm_chr c i t caps : first_match (Chr c) i (String c "") t caps caps
| fm_star p i u t caps :
    Str.all p u = true -> starts_outside p t = true ->
    first_match (StarCls p) i u t caps caps
| fm_plus p i u t caps :
    Str.nonempty u = true -> Str.all p u = true ->
    starts_outside p t = true ->
    first_match (PlusCls p) i u t caps caps
| fm_cat r1 r2 i u1 u2 t caps caps1 caps2 :
    first_match r1 i u1 (u2 +:+ t) caps caps1 ->
    first_match r2 (i + String.length u1) u2 t caps1 caps2 ->
    first_match (Cat r1 r2) i (u1 +:+ u2) t caps caps2
| fm_opt_take r i u t caps caps' :
    first_match r i u t caps caps' ->
    first_match (Opt r) i u t caps caps'
| fm_opt_skip r i t caps :
    (forall k, Regexp.run r i t caps k = None) ->
    first_match (Opt r) i "" t caps caps
| fm_group idx name r i u t caps caps' :
    first_match r i u t caps caps' ->
    first_match (Group idx name r) i u t caps (<[idx := u]> caps').

End Syntax.

(** ** Vocabulary of the statements *)

(** The text of a JSON string value. *)
Definition dquote : ascii := ascii_of_nat 34.
Definition json_string (s : string) : string :=
  String dquote (s +:+ String dquote "").

(** [strings.Join]. *)
Fixpoint Join (elems : list string) (sep : string) : string :=
  match elems with
  | [] => ""
  | [e] => e
  | e :: rest => e +:+ sep +:+ Join rest sep
  end.

(** The components of [elems], each one behind a dot. *)
Definition dotted (elems : list string) : string :=
  fold_right (fun e acc => "." +:+ e +:+ acc) "" elems.

(** A vector extended with zeros on the right up to length [n]. *)
Definition pad_right (n : nat) (v : list Z) : list Z :=
  v ++ replicate (n - length v) 0%Z.

(** The comparison of two aligned vectors, component by component from the
    most significant: the first difference decides. *)
Fixpoint compare_aligned (primary secondary : list Z) : Z :=
  match primary, secondary with
  | a :: primary', b :: secondary' =>
      if (a >? b)%Z then 1
      else if (a <? b)%Z then -1
      else compare_aligned primary' secondary'
  | _, _ => 0
  end.

(** A run of digits. *)
Definition digits (d : string) : Prop :=
  Str.nonempty d = true /\ Str.all isDigit d = true.

(** A tag that [semverRE] is written for: bytes that are not digits, then
    one to five runs of digits separated by dots. *)
Definition well_formed (s : string) : Prop :=
  exists p ds,
    s = p +:+ Join ds "."
    /\ Str.all notDigit p = true
    /\ Forall digits ds
    /\ (1 <= length ds <= 5)%nat.

(** The slots of a match of [semverRE]: the whole match, the first
    component twice, then for each further component the component with
    and without its dot; the slots of the components that are absent stay
    empty. *)
Definition semver_slots (whole d1 : string) (rest : list string)
  : list string :=
  whole :: d1 :: d1
        :: (rest ≫= (fun d => ["." +:+ d; d]))
        ++ replicate (2 * (4 - length rest)) "".

(** The number of lookups in a log. *)
Definition lookups (log : list Event) : nat :=
  length (List.filter (fun ev => match ev with EvGet _ => true | _ => false end) log).

(** [entries_ok lookup es log msgs log']: from the log [log], [checkEntry]
    succeeds on every entry of [es] in turn, with the messages [msgs], and
    leaves the log [log']. *)
Inductive entries_ok (lookup : list Event -> string -> LookupOutcome)
  : list SourceEntry -> list Event -> list Msg -> list Event -> Prop :=
| entries_ok_nil log : entries_ok lookup [] log [] log
| entries_ok_cons e es log m log1 msgs log2 :
    checkEntry lookup e log = (inr m, log1) ->
    entries_ok lookup es log1 msgs log2 ->
    entries_ok lookup (e :: es) log (m :: msgs) log2.

(** A visit that concerns a file which is not a directory. *)
Definition isFile (v : Visit) : bool :=
  match info v with
  | Some f => negb (IsDir f)
  | None => false
  end.

(** ** parseConfig and handleManifest

    [ioutil.ReadFile] and [yaml.Unmarshal] belong to the outside world: the
    first gives the bytes of a file or an error, the second fills the zero
    [Config] from the bytes and may report an error. [handleManifest]
    panics on an error; otherwise it prints the messages, joined by
    newlines, with one call of [fmt.Println]. *)

Inductive configError : Type :=
| ErrReadFile (cause : string)
| ErrInvalidYaml (cause : string)
    (* "Invalid yaml\n%v" *)
| ErrInvalidConfig (err : error).
    (* "Invalid config\n%v" *)

Inductive Outcome : Type :=
| Panicked (cause : configError + error)
| Printed (msgs : list Msg).

Section Manifest.

Variable readFile : string -> string + string.
Variable yamlUnmarshal : string -> Config * option string.
Variable lookup : list Event -> string -> LookupOutcome.

Definition parseConfig (filename : string) : Config * option configError :=
  match readFile filename with
  | inl cause => (mkConfig [], Some (ErrReadFile cause))
  | inr data =>
      let '(config, err) := yamlUnmarshal data in
      match err with
      | Some cause => (config, Some (ErrInvalidYaml cause))
      | None =>
          match validateConfig config with
          | Some err' => (config, Some (ErrInvalidConfig err'))
          | None => (config, None)
          end
      end
  end.

Definition handleManifest (filename : string) (log : list Event)
  : Outcome * list Event :=
  match parseConfig filename with
  | (_, Some err) => (Panicked (inl err), log)
  | (conf, None) =>
      match checkNewer lookup conf log with
      | ((_, Some err), log') => (Panicked (inr err), log')
      | ((msgs, None), log') => (Printed msgs, log')
      end
  end.

End Manifest.

(** An entry that [validateConfig] lets through. *)
Definition entry_ok (e : SourceEntry) : Prop :=
  ~ (Repo e <> "" /\ URL e <> "") /\ (Repo e <> "" -> Tag e <> "").

(** * Properties *)

(** ** The patterns *)

(** The groups of both patterns are numbered in the order of their opening
    parentheses. *)
Example repoRE_groups : Regexp.groups repoRE = [(1, ""); (2, "")]%nat.
Proof. reflexivity. Qed.

Example semverRE_names :
  Regexp.SubexpNames semverRE
  = [""; "first"; ""; ""; "second"; ""; "third"; ""; "fourth"; ""; "fifth"]
  /\ fst <$> Regexp.groups semverRE = seq 1 10.
Proof. split; reflexivity. Qed.

Example semverRE_submatches :
  Regexp.FindStringSubmatch semverRE "release-2.0.1"
  = ["release-2.0.1"; "2"; "2"; ".0"; "0"; ".1"; "1"; ""; ""; ""; ""].
Proof. vm_compute. reflexivity. Qed.

Example parseRepo_examples :
  parseRepo "github.com/owner/project" = inr ("owner", "project")
  /\ parseRepo "github.com/owner/project/tree/main" = inr ("owner", "project")
  /\ parseRepo "not-a-repo-string" = inl (ErrParseRepo "not-a-repo-string" []).
Proof. repeat split; vm_compute; reflexivity. Qed.

(** ** compareSemver *)

Lemma compare_loop_aligned (as_ : list Z) :
  forall (i : nat) (bs : list Z),
    compare_loop as_ i bs
    = compare_aligned as_ (pad_right (length as_) (drop i bs)).
Proof.
  induction as_ as [|a as' IH]; intros i bs; [reflexivity|].
  cbn [compare_loop]. rewrite IH. unfold pad_right.
  destruct (Nat.leb_spec (length bs) i) as [Hle|Hlt].
  - rewrite !drop_ge by lia. cbn [length app]. rewrite !Nat.sub_0_r.
    reflexivity.
  - destruct (lookup_lt_is_Some_2 bs i Hlt) as [b Hb].
    rewrite (drop_S _ _ _ Hb). cbn [app length compare_aligned].
    rewrite (nth_lookup_Some _ _ _ _ Hb).
    replace (S (length as') - S (length (drop (S i) bs)))%nat
      with (length as' - length (drop (S i) bs))%nat by lia.
    reflexivity.
Qed.

Lemma compareVectors_aligned (xs ys : list Z) :
  compareVectors xs ys
  = if (length ys <=? length xs)%nat
    then compare_aligned xs (pad_right (length xs) ys)
    else compare_aligned ys (pad_right (length ys) xs).
Proof.
  unfold compareVectors.
  destruct (length ys <=? length xs)%nat;
    rewrite compare_loop_aligned, drop_0; reflexivity.
Qed.

(** C7. The four comparisons of the specification evaluate as stated, and
    whenever both strings parse, [compareSemver] is the component-wise
    comparison of the longer vector with the shorter one padded with zeros
    on the right up to the length of the longer. *)
Theorem compareSemver_zero_padding :
  compareSemver "1.2" "1.2.0" = (0%Z, None)
  /\ compareSemver "1.2.0" "1.2" = (0%Z, None)
  /\ compareSemver "v1.10.0" "v1.9.9" = (1%Z, None)
  /\ compareSemver "release-2.0.1" "2.0.1" = (0%Z, None)
  /\ forall x y xs ys,
       mkSemver x = (xs, None) ->
       mkSemver y = (ys, None) ->
       compareSemver x y
       = (if (length ys <=? length xs)%nat
          then compare_aligned xs (pad_right (length xs) ys)
          else compare_aligned ys (pad_right (length ys) xs), None).
Proof.
  split; [vm_compute; reflexivity|].
  split; [vm_compute; reflexivity|].
  split; [vm_compute; reflexivity|].
  split; [vm_compute; reflexivity|].
  intros x y xs ys Hx Hy. unfold compareSemver. rewrite Hx, Hy.
  rewrite compareVectors_aligned. reflexivity.
Qed.

Lemma compareSemver_zero_padding_witness :
  compareSemver "1.2" "1.2.0"
  = (compare_aligned [1; 2; 0]%Z (pad_right 3 [1; 2]%Z), None).
Proof.
  apply (proj2 (proj2 (proj2 (proj2 compareSemver_zero_padding)))
               "1.2" "1.2.0" [1; 2]%Z [1; 2; 0]%Z);
    reflexivity.
Defined.

(** What does hold of the comparison: a vector equals itself, two vectors
    of the same length compare with opposite signs, and two vectors of
    different lengths compare the same way in both orders. *)
Lemma compare_aligned_refl (xs : list Z) : compare_aligned xs xs = 0%Z.
Proof.
  induction xs as [|a xs IH]; cbn [compare_aligned]; [reflexivity|].
  destruct (Z.gtb_spec a a); [lia|]. destruct (Z.ltb_spec a a); [lia|exact IH].
Qed.

Lemma compareVectors_refl (xs : list Z) : compareVectors xs xs = 0%Z.
Proof.
  rewrite compareVectors_aligned, Nat.leb_refl. unfold pad_right.
  rewrite Nat.sub_diag. cbn [replicate]. rewrite app_nil_r.
  apply compare_aligned_refl.
Qed.

Lemma compare_aligned_opp (xs : list Z) :
  forall ys, length xs = length ys ->
             compare_aligned xs ys = (- compare_aligned ys xs)%Z.
Proof.
  induction xs as [|a xs IH]; intros [|b ys] Hlen; try discriminate;
    cbn [compare_aligned]; [reflexivity|].
  destruct (Z.gtb_spec a b), (Z.ltb_spec a b), (Z.gtb_spec b a),
    (Z.ltb_spec b a); try lia.
  apply IH. cbn in Hlen. lia.
Qed.

Lemma compareVectors_same_length (xs ys : list Z) :
  length xs = length ys ->
  compareVectors xs ys = (- compareVectors ys xs)%Z.
Proof.
  intros Hlen. rewrite !compareVectors_aligned, Hlen, Nat.leb_refl.
  unfold pad_right. rewrite Hlen, Nat.sub_diag. cbn [replicate].
  rewrite !app_nil_r. apply compare_aligned_opp, Hlen.
Qed.

Lemma compareVectors_other_length (xs ys : list Z) :
  length xs <> length ys -> compareVectors xs ys = compareVectors ys xs.
Proof.
  intros Hlen. unfold compareVectors.
  destruct (Nat.leb_spec (length ys) (length xs)),
    (Nat.leb_spec (length xs) (length ys)); try lia; reflexivity.
Qed.

(** C2. The comparison is not antisymmetric when the vectors differ in
    length: the longer vector is always the primary one and the sign is not
    flipped when the operands were swapped. Both orders of "1.2" and "1.3.0"
    give 1. *)
Theorem compareSemver_swap_keeps_sign :
  compareSemver "1.2" "1.3.0" = (1%Z, None)
  /\ compareSemver "1.3.0" "1.2" = (1%Z, None).
Proof. split; vm_compute; reflexivity. Qed.

(** ** validateConfig *)

Lemma nonempty_true (s : string) : Str.nonempty s = true <-> s <> "".
Proof. destruct s; cbn; split; congruence. Qed.

Lemma nonempty_false (s : string) : Str.nonempty s = false <-> s = "".
Proof. destruct s; cbn; split; congruence. Qed.

(** C4, as stated, fails: an entry with neither [Repo] nor [URL] passes the
    validation. *)
Lemma validateConfig_accepts_empty_entry :
  validateConfig (mkConfig [mkEntry "" "" ""]) = None
  /\ Repo (mkEntry "" "" "") = "" /\ URL (mkEntry "" "" "") = "".
Proof. repeat split. Qed.

(** C4, amended. In a configuration that [validateConfig] accepts no entry
    has both [Repo] and [URL] set, and an entry with [Repo] set has a
    non-empty [Tag]. *)
Theorem validateConfig_accepted (config : Config) :
  validateConfig config = None ->
  Forall (fun e =>
            ~ (Repo e <> "" /\ URL e <> "")
            /\ (Repo e <> "" -> Tag e <> ""))
         (Sources config).
Proof.
  unfold validateConfig. induction (Sources config) as [|e es IH];
    cbn [validateConfig_loop]; intros H; [constructor|].
  destruct (Str.nonempty (URL e) && Str.nonempty (Repo e)) eqn:Hboth;
    [discriminate|].
  destruct (Str.nonempty (Repo e) && negb (Str.nonempty (Tag e))) eqn:Htag;
    [discriminate|].
  constructor; [|apply IH, H]. split.
  - intros [Hr Hu]. apply nonempty_true in Hr, Hu.
    rewrite Hr, Hu in Hboth. discriminate.
  - intros Hr Ht. apply nonempty_true in Hr. rewrite Hr, Ht in Htag.
    discriminate.
Qed.

Lemma validateConfig_accepted_witness :
  Forall (fun e =>
            ~ (Repo e <> "" /\ URL e <> "")
            /\ (Repo e <> "" -> Tag e <> ""))
         [mkEntry "github.com/foo/bar" "1.0.0" "";
          mkEntry "" "" "https://example.org/a.tar.gz"].
Proof.
  apply (validateConfig_accepted
           (mkConfig [mkEntry "github.com/foo/bar" "1.0.0" "";
                      mkEntry "" "" "https://example.org/a.tar.gz"])).
  reflexivity.
Defined.

(** ** searchForManifests *)

(** C6, as stated, fails: a file named MYSOURCES is returned although its
    base name is not the manifest name. *)
Lemma searchForManifests_returns_MYSOURCES :
  searchForManifests
    [mkVisit "dir" (Some (mkInfo true)) None;
     mkVisit "dir/MYSOURCES" (Some (mkInfo false)) None]
  = Some ["dir/MYSOURCES"]
  /\ Filepath.Base "dir/MYSOURCES" = "MYSOURCES"
  /\ "MYSOURCES" <> manifestName.
Proof. repeat split. discriminate. Qed.

Lemma walk_no_error (visits : list Visit) :
  Forall (fun v => walkErr v = None /\ info v <> None) visits ->
  forall manifests,
    walk visits manifests
    = Some (manifests ++
            (path <$> List.filter
               (fun v => Str.HasSuffix (path v) manifestName && isFile v)
               visits)).
Proof.
  induction 1 as [|v rest [Herr Hinfo] _ IH]; intros manifests.
  - cbn. rewrite app_nil_r. reflexivity.
  - cbn [walk List.filter]. unfold visit, isFile. rewrite Herr.
    destruct (info v) as [f|]; [|congruence].
    destruct (Str.HasSuffix (path v) manifestName); cbn [andb].
    + destruct (IsDir f); cbn [negb]; rewrite IH; [reflexivity|].
      cbn. rewrite <- app_assoc. reflexivity.
    + apply IH.
Qed.

(** C6, amended. When the walk meets no error, [searchForManifests] returns,
    in the order of the walk, exactly the visited paths that are not
    directories and that end with the manifest name. *)
Theorem searchForManifests_suffix (visits : list Visit) :
  Forall (fun v => walkErr v = None /\ info v <> None) visits ->
  searchForManifests visits
  = Some (path <$> List.filter
            (fun v => Str.HasSuffix (path v) manifestName && isFile v)
            visits).
Proof. intros H. unfold searchForManifests. rewrite (walk_no_error _ H). reflexivity. Qed.

Lemma searchForManifests_suffix_witness :
  searchForManifests
    [mkVisit "." (Some (mkInfo true)) None;
     mkVisit "SOURCES" (Some (mkInfo false)) None;
     mkVisit "a" (Some (mkInfo true)) None;
     mkVisit "a/MYSOURCES" (Some (mkInfo false)) None;
     mkVisit "a/SOURCES" (Some (mkInfo true)) None;
     mkVisit "a/SOURCES/x.go" (Some (mkInfo false)) None]
  = Some ["SOURCES"; "a/MYSOURCES"].
Proof.
  apply (searchForManifests_suffix
    [mkVisit "." (Some (mkInfo true)) None;
     mkVisit "SOURCES" (Some (mkInfo false)) None;
     mkVisit "a" (Some (mkInfo true)) None;
     mkVisit "a/MYSOURCES" (Some (mkInfo false)) None;
     mkVisit "a/SOURCES" (Some (mkInfo true)) None;
     mkVisit "a/SOURCES/x.go" (Some (mkInfo false)) None]).
  repeat constructor; discriminate.
Defined.

(** ** checkEntry and checkNewer *)

Section ReconciliationProperties.

Variable lookup : list Event -> string -> LookupOutcome.

Lemma checkEntry_lookups (e : SourceEntry) (log : list Event) :
  (lookups (snd (checkEntry lookup e log)) <= S (lookups log))%nat.
Proof.
  unfold checkEntry.
  assert (Hget : forall u, lookups (log ++ [EvGet u]) = S (lookups log)).
  { intros u. unfold lookups. rewrite List.filter_app, length_app.
    cbn. lia. }
  assert (Hcmp : forall l x y, lookups (l ++ [EvCompare x y]) = lookups l).
  { intros l x y. unfold lookups. rewrite List.filter_app, length_app.
    cbn. lia. }
  destruct (Str.nonempty (URL e)); cbn [snd]; [lia|].
  destruct (parseRepo (Repo e)) as [err|[owner gitrepo]]; cbn [snd]; [lia|].
  destruct (lookup log _) as [c|c|c b|gitObj]; cbn [snd];
    rewrite ?Hget; try lia.
  destruct (map_index gitObj "name") as [raw|]; cbn [snd];
    rewrite ?Hget; try lia.
  destruct (compareSemver _ _) as [rel [err|]]; cbn [snd];
    [rewrite Hcmp, Hget; lia|].
  destruct (rel <? 0)%Z; cbn [snd]; rewrite Hcmp, Hget; lia.
Qed.

Lemma checkNewer_loop_stops (pre : list SourceEntry) :
  forall e post log msgs log1 err log2 acc,
    entries_ok lookup pre log msgs log1 ->
    checkEntry lookup e log1 = (inl err, log2) ->
    checkNewer_loop lookup (pre ++ e :: post) acc log
    = ((acc ++ msgs, Some err), log2)
    /\ length msgs = length pre
    /\ (lookups log2 <= lookups log + S (length pre))%nat.
Proof.
  induction pre as [|e0 pre IH]; intros e post log msgs log1 err log2 acc Hok He.
  - inversion Hok; subst. cbn [app checkNewer_loop]. rewrite He.
    rewrite app_nil_r. repeat split.
    pose proof (checkEntry_lookups e log1) as Hl. rewrite He in Hl.
    cbn [snd length] in *. lia.
  - inversion Hok as [|? ? ? m logA msgs' ? Hm Hrest]; subst.
    cbn [app checkNewer_loop]. rewrite Hm.
    destruct (IH e post logA msgs' log1 err log2 (acc ++ [m]) Hrest He)
      as (Hrun & Hlen & Hcount).
    rewrite Hrun, <- app_assoc. repeat split; [cbn; lia|].
    pose proof (checkEntry_lookups e0 log) as Hl. rewrite Hm in Hl.
    cbn [snd length] in *. lia.
Qed.

End ReconciliationProperties.

(** C8. If [checkEntry] succeeds on the entries before entry i, with the
    messages [msgs], and fails on entry i with [err], then [checkNewer]
    returns [msgs] (one message per earlier entry) together with [err]; the
    run ends in the state that the failing [checkEntry] left, whatever
    entries follow, and has made at most i+1 lookups. *)
Theorem checkNewer_stops_at_first_error
        (lookup : list Event -> string -> LookupOutcome)
        (pre : list SourceEntry) (e : SourceEntry) (post : list SourceEntry)
        (log : list Event) (msgs : list Msg) (log1 : list Event)
        (err : error) (log2 : list Event) :
  entries_ok lookup pre log msgs log1 ->
  checkEntry lookup e log1 = (inl err, log2) ->
  checkNewer lookup (mkConfig (pre ++ e :: post)) log = ((msgs, Some err), log2)
  /\ length msgs = length pre
  /\ (lookups log2 <= lookups log + S (length pre))%nat.
Proof.
  intros Hok He. unfold checkNewer. cbn [Sources].
  apply (checkNewer_loop_stops lookup pre e post log msgs log1 err log2 [] Hok He).
Qed.

(** ** Byte strings *)

Module StrFacts.

Lemma app_nil_r (s : string) : s +:+ "" = s.
Proof. induction s as [|c s IH]; simpl; [|rewrite IH]; reflexivity. Qed.

Lemma app_assoc (a b c : string) : (a +:+ b) +:+ c = a +:+ (b +:+ c).
Proof. induction a as [|x a IH]; simpl; [|rewrite IH]; reflexivity. Qed.

Lemma length_app (a b : string) :
  String.length (a +:+ b) = (String.length a + String.length b)%nat.
Proof. induction a as [|x a IH]; simpl; [|rewrite IH]; reflexivity. Qed.

Lemma take_app_length (u t : string) : Str.take (String.length u) (u +:+ t) = u.
Proof. induction u as [|c u IH]; simpl; [destruct t|rewrite IH]; reflexivity. Qed.

Lemma take_drop (n : nat) (s : string) : Str.take n s +:+ Str.drop n s = s.
Proof.
  revert s; induction n as [|n IH]; intros [|c s]; simpl; try reflexivity.
  rewrite IH. reflexivity.
Qed.

Lemma length_take (n : nat) (s : string) :
  (n <= String.length s)%nat -> String.length (Str.take n s) = n.
Proof.
  revert s; induction n as [|n IH]; intros [|c s]; simpl; intros H;
    try reflexivity; try lia.
  rewrite IH; [reflexivity|lia].
Qed.

Lemma all_app (p : ascii -> bool) (a b : string) :
  Str.all p (a +:+ b) = Str.all p a && Str.all p b.
Proof.
  induction a as [|c a IH]; simpl; [reflexivity|].
  rewrite IH, andb_assoc. reflexivity.
Qed.

Lemma any_app (p : ascii -> bool) (a b : string) :
  Str.any p (a +:+ b) = Str.any p a || Str.any p b.
Proof.
  induction a as [|c a IH]; simpl; [reflexivity|].
  rewrite IH, orb_assoc. reflexivity.
Qed.

Lemma all_impl (p q : ascii -> bool) (s : string) :
  (forall c, p c = true -> q c = true) ->
  Str.all p s = true -> Str.all q s = true.
Proof.
  intros Hpq. induction s as [|c s IH]; simpl; [reflexivity|].
  intros [Hc Hs]%andb_true_iff. rewrite (Hpq c Hc), (IH Hs). reflexivity.
Qed.

End StrFacts.

Lemma runeWidth_le (s : string) : (Utf8.runeWidth s <= String.length s)%nat.
Proof.
  unfold Utf8.runeWidth.
  destruct s as [|c0 [|c1 [|c2 [|c3 s]]]]; cbn; rewrite ?andb_false_r;
    repeat match goal with
           | |- context [if ?b then _ else _] => destruct b
           end; lia.
Qed.

(** ** The matcher reaches its continuation only through a match *)

Module SyntaxFacts.
Import Syntax Regexp.

Lemma sub_class_spec (p q : ascii -> bool) :
  sub_class p q = true -> forall c, p c = true -> q c = true.
Proof.
  unfold sub_class, all_bytes. rewrite forallb_forall. intros H c Hp.
  specialize (H c). rewrite Hp in H. apply H.
  rewrite <- (ascii_nat_embedding c). apply in_map, in_seq.
  pose proof (nat_ascii_bounded c). lia.
Qed.

Lemma star_sound (p : ascii -> bool) (s : string) :
  forall i k m,
    star p i s k = Some m ->
    exists u t, s = u +:+ t /\ Str.all p u = true
                /\ k (i + String.length u)%nat t = Some m.
Proof.
  induction s as [|c s IH]; intros i k m H; cbn in H.
  - exists "", "". rewrite Nat.add_0_r. auto.
  - destruct (p c) eqn:Hc.
    + destruct (star p (S i) s k) as [m'|] eqn:Hs.
      * destruct (IH _ _ _ Hs) as (u & t & -> & Hu & Hk).
        exists (String c u), t. cbn. rewrite Hc, Hu, Nat.add_succ_r.
        inversion H; subst. auto.
      * exists "", (String c s). rewrite Nat.add_0_r. auto.
    + exists "", (String c s). rewrite Nat.add_0_r. auto.
Qed.

Lemma named_slots_insert names q (caps : list string) idx u :
  named_slots names q caps ->
  (Str.nonempty (nth idx names "") = true -> Str.all q u = true) ->
  named_slots names q (<[idx := u]> caps).
Proof.
  intros Hinv Hu j Hj. rewrite nth_lookup.
  destruct (decide (j = idx)) as [->|Hne].
  - destruct (Nat.lt_ge_cases idx (length caps)) as [Hlt|Hge].
    + rewrite list_lookup_insert_eq by exact Hlt. cbn. auto.
    + rewrite list_insert_ge by exact Hge. rewrite <- nth_lookup. auto.
  - rewrite list_lookup_insert_ne by congruence. rewrite <- nth_lookup. auto.
Qed.

Lemma shape_only (q : ascii -> bool) (r : regex) :
  only q r = true -> forall u, shape r u -> Str.all q u = true.
Proof.
  induction r as [| |c| |p|p|r1 IH1 r2 IH2|r IH|idx name r IH];
    cbn [only shape]; intros Hq u Hu; try (subst u; cbn; try rewrite Hq; reflexivity).
  - discriminate.
  - apply (StrFacts.all_impl p); [apply sub_class_spec, Hq|exact Hu].
  - apply (StrFacts.all_impl p); [apply sub_class_spec, Hq|apply Hu].
  - apply andb_true_iff in Hq as [Hq1 Hq2].
    destruct Hu as (u1 & u2 & -> & Hu1 & Hu2).
    rewrite StrFacts.all_app, (IH1 Hq1 _ Hu1), (IH2 Hq2 _ Hu2). reflexivity.
  - destruct Hu as [->|Hu]; [reflexivity|apply (IH Hq _ Hu)].
  - apply (IH Hq _ Hu).
Qed.

Lemma shape_has (q : ascii -> bool) (r : regex) :
  has q r = true -> forall u, shape r u -> Str.any q u = true.
Proof.
  induction r as [| |c| |p|p|r1 IH1 r2 IH2|r IH|idx name r IH];
    cbn [has shape]; intros Hq u Hu; try discriminate.
  - subst u. cbn. rewrite Hq. reflexivity.
  - destruct Hu as [Hne Hu]. destruct u as [|c u]; [discriminate|].
    cbn in Hu |- *. apply andb_true_iff in Hu as [Hc _].
    rewrite (sub_class_spec _ _ Hq c Hc). reflexivity.
  - destruct Hu as (u1 & u2 & -> & Hu1 & Hu2). rewrite StrFacts.any_app.
    apply orb_true_iff in Hq as [Hq1|Hq2].
    + rewrite (IH1 Hq1 _ Hu1). reflexivity.
    + rewrite (IH2 Hq2 _ Hu2). apply orb_true_r.
  - apply (IH Hq _ Hu).
Qed.

(** What is known when the matcher has reached its continuation: the text
    [u] taken by [r] in front of the rest [t], from offset [i]. *)
Definition taken (r : regex) (i : nat) (u t : string) : Prop :=
  shape r u
  /\ (begins r = true -> i = 0%nat)
  /\ (ends r = true -> t = "").

Lemma run_sound names q (r : regex) :
  named_only names q r = true ->
  forall i s caps k m,
    named_slots names q caps ->
    run r i s caps k = Some m ->
    exists u t caps',
      s = u +:+ t
      /\ named_slots names q caps'
      /\ k (i + String.length u)%nat t caps' = Some m
      /\ taken r i u t.
Proof.
  unfold taken.
  induction r as [| |c| |p|p|r1 IH1 r2 IH2|r IH|idx name r IH];
    cbn [named_only run shape begins ends]; intros Hn i s caps k m Hinv H.
  - destruct (Nat.eqb_spec i 0); [|discriminate].
    exists "", s, caps. rewrite Nat.add_0_r. cbn. repeat split; auto; discriminate.
  - destruct s; [|discriminate].
    exists "", "", caps. rewrite Nat.add_0_r. cbn. repeat split; auto; discriminate.
  - destruct s as [|c' s]; [discriminate|].
    destruct (Ascii.eqb_spec c c') as [<-|]; [|discriminate].
    exists (String c ""), s, caps. rewrite Nat.add_1_r. cbn.
    repeat split; auto; discriminate.
  - destruct s as [|c s]; [discriminate|].
    destruct (Ascii.eqb c newline); [discriminate|].
    exists (Str.take (Utf8.runeWidth (String c s)) (String c s)),
           (Str.drop (Utf8.runeWidth (String c s)) (String c s)), caps.
    rewrite StrFacts.take_drop, StrFacts.length_take by apply runeWidth_le.
    repeat split; auto; discriminate.
  - destruct (star_sound _ _ _ _ _ H) as (u & t & -> & Hu & Hk).
    exists u, t, caps. repeat split; auto; discriminate.
  - destruct s as [|c s]; [discriminate|].
    destruct (p c) eqn:Hc; [|discriminate].
    destruct (star_sound _ _ _ _ _ H) as (u & t & -> & Hu & Hk).
    exists (String c u), t, caps. cbn. rewrite Nat.add_succ_r, Hc, Hu.
    repeat split; auto; discriminate.
  - apply andb_true_iff in Hn as [Hn1 Hn2].
    destruct (IH1 Hn1 _ _ _ _ _ Hinv H)
      as (u1 & t1 & caps1 & -> & Hinv1 & Hk1 & Hs1 & Hb1 & _).
    destruct (IH2 Hn2 _ _ _ _ _ Hinv1 Hk1)
      as (u2 & t2 & caps2 & -> & Hinv2 & Hk2 & Hs2 & _ & He2).
    exists (u1 +:+ u2), t2, caps2.
    rewrite StrFacts.app_assoc, StrFacts.length_app, Nat.add_assoc.
    repeat split; auto. exists u1, u2. auto.
  - destruct (run r i s caps k) as [m'|] eqn:Hr.
    + inversion H; subst m'.
      destruct (IH Hn _ _ _ _ _ Hinv Hr)
        as (u & t & caps' & -> & Hinv' & Hk & Hs & _ & _).
      exists u, t, caps'. repeat split; auto; discriminate.
    + exists "", s, caps. rewrite Nat.add_0_r. cbn.
      repeat split; auto; discriminate.
  - apply andb_true_iff in Hn as [Hidx Hn].
    destruct (IH Hn _ _ _ _ _ Hinv H)
      as (u & t & caps' & -> & Hinv' & Hk & Hs & Hb & He).
    replace (i + String.length u - i)%nat with (String.length u) in Hk by lia.
    rewrite StrFacts.take_app_length in Hk.
    exists u, t, (<[idx := u]> caps'). repeat split; auto.
    apply named_slots_insert; [exact Hinv'|].
    intros Hnamed. rewrite Hnamed in Hidx. cbn in Hidx.
    apply (shape_only q r Hidx u Hs).
Qed.

Lemma named_slots_init names q n : named_slots names q (replicate n "").
Proof.
  intros j _. rewrite nth_lookup.
  destruct (replicate n "" !! j) as [x|] eqn:Hx; [|reflexivity].
  apply lookup_replicate in Hx as [-> _]. reflexivity.
Qed.

(** A submatch slice found by the search from offset [i]: its named slots
    hold bytes of [q] only, and the input is [pre +:+ u +:+ t] with [u] the
    text taken by the pattern. *)
Lemma search_sound names q (r : regex) :
  named_only names q r = true ->
  Str.nonempty (nth 0 names "") = false ->
  forall fuel i s m,
    search fuel r i s = Some m ->
    named_slots names q m
    /\ exists pre u t,
        s = pre +:+ u +:+ t /\ taken r (i + String.length pre) u t.
Proof.
  intros Hn H0. induction fuel as [|fuel IH]; intros i s m H;
    cbn [search] in H; [discriminate|].
  match type of H with
  | match ?x with _ => _ end = _ => destruct x as [m'|] eqn:Hrun
  end.
  - inversion H; subst m'.
    destruct (run_sound names q r Hn _ _ _ _ _ (named_slots_init _ _ _) Hrun)
      as (u & t & caps' & -> & Hinv & Hk & Htaken).
    inversion Hk; subst m. split.
    + apply named_slots_insert; [exact Hinv|]. rewrite H0. discriminate.
    + exists "", u, t. cbn [String.length]. rewrite Nat.add_0_r. auto.
  - destruct s as [|c s]; [discriminate|].
    destruct (IH _ _ _ H) as (Hinv & pre & u & t & Hs & Htaken).
    split; [exact Hinv|].
    exists (Str.take (Utf8.runeWidth (String c s)) (String c s) +:+ pre), u, t.
    rewrite StrFacts.app_assoc, <- Hs, StrFacts.take_drop.
    rewrite StrFacts.length_app, StrFacts.length_take, Nat.add_assoc
      by apply runeWidth_le.
    auto.
Qed.

Lemma FindStringSubmatch_sound names q (r : regex) (s : string) :
  named_only names q r = true ->
  Str.nonempty (nth 0 names "") = false ->
  FindStringSubmatch r s = []
  \/ (named_slots names q (FindStringSubmatch r s)
      /\ exists pre u t,
          s = pre +:+ u +:+ t /\ taken r (String.length pre) u t).
Proof.
  intros Hn H0. unfold FindStringSubmatch.
  destruct (search _ r 0 s) as [m|] eqn:Hs; [right|left; reflexivity].
  apply (search_sound names q r Hn H0 _ _ _ _ Hs).
Qed.

(** A pattern written between [^] and [$] matches the whole input or
    nothing. *)
Lemma FindStringSubmatch_anchored names q (r : regex) (s : string) :
  named_only names q r = true ->
  Str.nonempty (nth 0 names "") = false ->
  begins r = true -> ends r = true ->
  FindStringSubmatch r s = []
  \/ (named_slots names q (FindStringSubmatch r s) /\ shape r s).
Proof.
  intros Hn H0 Hb He.
  destruct (FindStringSubmatch_sound names q r s Hn H0)
    as [H|(Hslots & pre & u & t & -> & Hs & Hi & Ht)]; [left; exact H|right].
  split; [exact Hslots|].
  specialize (Hi Hb). rewrite (Ht He), StrFacts.app_nil_r.
  destruct pre; [exact Hs|discriminate].
Qed.

End SyntaxFacts.

(** ** strconv.ParseInt on a run of digits *)

Lemma isDigit_digit_val (c : ascii) : isDigit c = true -> (0 <= digit_val c)%Z.
Proof.
  unfold isDigit, digit_val. intros [H _]%andb_true_iff.
  apply N.leb_le in H. lia.
Qed.

Lemma digits_from_nonneg (s : string) :
  forall acc v, (0 <= acc)%Z -> digits_from acc s = Some v -> (0 <= v)%Z.
Proof.
  induction s as [|c s IH]; cbn [digits_from]; intros acc v Hacc H.
  - inversion H; subst; exact Hacc.
  - destruct (isDigit c) eqn:Hc; [|discriminate].
    apply (IH (10 * acc + digit_val c)%Z v); [|exact H].
    pose proof (isDigit_digit_val c Hc). lia.
Qed.

Lemma digits_from_all (s : string) :
  forall acc v, digits_from acc s = Some v -> Str.all isDigit s = true.
Proof.
  induction s as [|c s IH]; cbn [digits_from Str.all]; intros acc v H;
    [reflexivity|].
  destruct (isDigit c); [|discriminate]. apply (IH _ _ H).
Qed.

(** A string that starts with a digit carries no sign. *)
Lemma ParseInt_unsigned (c : ascii) (s : string) :
  isDigit c = true ->
  ParseInt (String c s)
  = match ParseUint (String c s) with
    | None => inl ErrSyntax
    | Some un => if (2 ^ 31 <=? un)%Z then inl ErrRange else inr un
    end.
Proof.
  intros Hc. unfold ParseInt.
  destruct (Ascii.eqb_spec c "-") as [->|_]; [discriminate|].
  destruct (Ascii.eqb_spec c "+") as [->|_]; [discriminate|].
  cbn [orb negb andb]. destruct (ParseUint (String c s)); reflexivity.
Qed.

Lemma ParseInt_digits_nonneg (d : string) (part : Z) :
  Str.nonempty d = true -> Str.all isDigit d = true ->
  ParseInt d = inr part -> (0 <= part)%Z.
Proof.
  destruct d as [|c s]; [discriminate|]. intros _ [Hc _]%andb_true_iff.
  rewrite (ParseInt_unsigned c s Hc). unfold ParseUint.
  destruct (digits_from 0 (String c s)) as [un|] eqn:Hun; [|discriminate].
  destruct (2 ^ 31 <=? un)%Z; [discriminate|].
  intros H; inversion H; subst. apply (digits_from_nonneg _ _ _ (Z.le_refl 0) Hun).
Qed.

(** ** mkSemver *)

Lemma semverRE_named_digits :
  Syntax.named_only (Regexp.SubexpNames semverRE) isDigit semverRE = true.
Proof. vm_compute. reflexivity. Qed.

Lemma semverRE_has_digit : Syntax.has isDigit semverRE = true.
Proof. vm_compute. reflexivity. Qed.

(** [semverRE] matches the whole input or nothing; its named submatches are
    runs of digits. *)
Lemma semverRE_sound (s : string) :
  Regexp.FindStringSubmatch semverRE s = []
  \/ (Syntax.named_slots (Regexp.SubexpNames semverRE) isDigit
                         (Regexp.FindStringSubmatch semverRE s)
      /\ Syntax.shape semverRE s).
Proof.
  apply SyntaxFacts.FindStringSubmatch_anchored;
    [exact semverRE_named_digits|reflexivity..].
Qed.

Lemma semverRE_named_slots (s : string) :
  Syntax.named_slots (Regexp.SubexpNames semverRE) isDigit
                     (Regexp.FindStringSubmatch semverRE s).
Proof.
  destruct (semverRE_sound s) as [->|[H _]]; [|exact H].
  intros j _. destruct j; reflexivity.
Qed.

(** No digit, no match. *)
Lemma semverRE_no_digit (s : string) :
  Str.any isDigit s = false -> Regexp.FindStringSubmatch semverRE s = [].
Proof.
  intros Hs. destruct (semverRE_sound s) as [H|[_ Hshape]]; [exact H|].
  rewrite (SyntaxFacts.shape_has isDigit semverRE semverRE_has_digit s Hshape)
    in Hs.
  discriminate.
Qed.

Lemma mkSemver_loop_never_negative (s : string) (m : list string)
      (names : list string) :
  forall i out,
    (forall j n, names !! j = Some n -> Str.nonempty n = true ->
                 Str.all isDigit (nth (i + j) m "") = true) ->
    forall s', snd (mkSemver_loop s m names i out) <> Some (ErrNegativePart s').
Proof.
  induction names as [|n names IH]; intros i out Hm s';
    cbn [mkSemver_loop]; [discriminate|].
  assert (Hrest : forall out',
             snd (mkSemver_loop s m names (S i) out') <> Some (ErrNegativePart s')).
  { intros out'. apply IH. intros j n' Hj Hn'.
    replace (S i + j)%nat with (i + S j)%nat by lia. apply (Hm (S j) n' Hj Hn'). }
  destruct (Str.nonempty n) eqn:Hn; cbn [andb]; [|apply Hrest].
  destruct (i <? length m)%nat; cbn [andb]; [|apply Hrest].
  destruct (Str.nonempty (nth i m "")) eqn:Hne; [|apply Hrest].
  destruct (ParseInt (nth i m "")) as [err|part] eqn:Hp; [discriminate|].
  specialize (Hm 0%nat n eq_refl Hn). rewrite Nat.add_0_r in Hm.
  pose proof (ParseInt_digits_nonneg _ _ Hne Hm Hp) as Hpos.
  destruct (Z.ltb_spec part 0); [lia|]. apply Hrest.
Qed.

(** C10. The submatch of every named group of [semverRE] is a run of
    digits, and [mkSemver] never returns the error of a component below
    zero, whatever the input. *)
Theorem mkSemver_never_negative (s : string) :
  Forall (fun i =>
            Str.all isDigit (nth i (Regexp.FindStringSubmatch semverRE s) "")
            = true)
         (Syntax.named_groups semverRE)
  /\ forall s', snd (mkSemver s) <> Some (ErrNegativePart s').
Proof.
  pose proof (semverRE_named_slots s) as Hslots. split.
  - repeat constructor; apply Hslots; reflexivity.
  - intros s'. unfold mkSemver. apply mkSemver_loop_never_negative.
    intros j n Hj Hn. cbn [Nat.add]. apply Hslots.
    rewrite (nth_lookup_Some _ _ _ _ Hj). exact Hn.
Qed.

(** C3, as stated, fails: a string without a digit, and "1.-2", give the
    empty vector and no error. *)
Lemma mkSemver_no_error_without_digit :
  mkSemver "no-digits-here" = ([], None)
  /\ mkSemver "1.-2" = ([], None).
Proof. split; vm_compute; reflexivity. Qed.

(** C3, amended. [mkSemver "v2.3"] is the vector 2, 3 with no error;
    [mkSemver "no-digits-here"] and [mkSemver "1.-2"] are the empty vector
    with no error; for every string without a digit [mkSemver] returns the
    empty vector and no error. *)
Theorem mkSemver_examples :
  mkSemver "v2.3" = ([2; 3]%Z, None)
  /\ mkSemver "no-digits-here" = ([], None)
  /\ mkSemver "1.-2" = ([], None)
  /\ forall s, Str.any isDigit s = false -> mkSemver s = ([], None).
Proof.
  split; [vm_compute; reflexivity|].
  split; [vm_compute; reflexivity|].
  split; [vm_compute; reflexivity|].
  intros s Hs. unfold mkSemver. rewrite (semverRE_no_digit s Hs). reflexivity.
Qed.

Lemma mkSemver_examples_witness : mkSemver "release-candidate" = ([], None).
Proof.
  apply (proj2 (proj2 (proj2 mkSemver_examples)) "release-candidate").
  reflexivity.
Defined.

(** ** checkEntry *)

Lemma checkNewer_stops_at_first_error_witness :
  checkNewer (fun (log : list Event) (_ : string) =>
                match log with
                | [] => Decoded ∅
                | _ :: _ => GetFailed "connection refused"
                end)
             (mkConfig [mkEntry "github.com/foo/bar" "1.0.0" "";
                        mkEntry "github.com/foo/baz" "2.0" "";
                        mkEntry "github.com/foo/qux" "3" ""]) []
  = (([msgUndefined "github.com/foo/bar"],
      Some (ErrRetrieve "github.com/foo/baz" "connection refused")),
     [EvGet (releasesURL "foo" "bar"); EvGet (releasesURL "foo" "baz")])
  /\ length [msgUndefined "github.com/foo/bar"] = 1%nat
  /\ (lookups [EvGet (releasesURL "foo" "bar"); EvGet (releasesURL "foo" "baz")]
      <= lookups [] + 2)%nat.
Proof.
  apply (checkNewer_stops_at_first_error
           (fun (log : list Event) (_ : string) =>
              match log with
              | [] => Decoded ∅
              | _ :: _ => GetFailed "connection refused"
              end)
           [mkEntry "github.com/foo/bar" "1.0.0" ""]
           (mkEntry "github.com/foo/baz" "2.0" "")
           [mkEntry "github.com/foo/qux" "3" ""] []
           [msgUndefined "github.com/foo/bar"]
           [EvGet (releasesURL "foo" "bar")]).
  - eapply entries_ok_cons; [vm_compute; reflexivity|apply entries_ok_nil].
  - vm_compute; reflexivity.
Defined.

(** C9. When the entry has no raw URL, its repository reference parses and
    the lookup answers with a JSON object whose name is absent or null,
    [checkEntry] returns the yellow message "latest release undefined" and no
    error; the run consists of the lookup alone, no comparison takes
    place. *)
Theorem checkEntry_release_undefined
        (lookup : list Event -> string -> LookupOutcome)
        (e : SourceEntry) (log : list Event) (owner gitrepo : string)
        (gitObj : gmap string (option string)) :
  URL e = "" ->
  parseRepo (Repo e) = inr (owner, gitrepo) ->
  lookup log (releasesURL owner gitrepo) = Decoded gitObj ->
  gitObj !! "name" = None \/ gitObj !! "name" = Some None ->
  checkEntry lookup e log
  = (inr (mkMsg Yellow
            ("Unable to check currency, latest release undefined for "
             +:+ Repo e)),
     log ++ [EvGet (releasesURL owner gitrepo)]).
Proof.
  intros Hurl Hrepo Hlookup Hname. unfold checkEntry.
  rewrite Hurl, Hrepo, Hlookup. cbn [Str.nonempty].
  unfold map_index. destruct Hname as [-> | ->]; reflexivity.
Qed.

Lemma checkEntry_release_undefined_witness :
  checkEntry (fun _ _ => Decoded {[ "name" := None ]})
             (mkEntry "github.com/foo/bar" "not a version 99999999999" "") []
  = (inr (mkMsg Yellow
            "Unable to check currency, latest release undefined for github.com/foo/bar"),
     [EvGet "https://api.github.com/repos/foo/bar/releases/latest"]).
Proof.
  apply (checkEntry_release_undefined
           (fun _ _ => Decoded {[ "name" := None ]})
           (mkEntry "github.com/foo/bar" "not a version 99999999999" "") []
           "foo" "bar" {[ "name" := None ]}).
  - reflexivity.
  - vm_compute; reflexivity.
  - reflexivity.
  - right. vm_compute; reflexivity.
Defined.

(** The components that [mkSemver] returns are never negative. *)
Lemma mkSemver_loop_nonneg (s : string) (m : list string) (names : list string) :
  forall i out,
    Forall (fun v => 0 <= v)%Z out ->
    Forall (fun v => 0 <= v)%Z (fst (mkSemver_loop s m names i out)).
Proof.
  induction names as [|n names IH]; intros i out Hout; cbn [mkSemver_loop];
    [exact Hout|].
  destruct (Str.nonempty n && (i <? length m)%nat && Str.nonempty (nth i m ""));
    [|apply IH, Hout].
  destruct (ParseInt (nth i m "")) as [err|part]; [exact Hout|].
  destruct (Z.ltb_spec part 0); [exact Hout|].
  apply IH, Forall_app. split; [exact Hout|]. constructor; [lia|constructor].
Qed.

Lemma compare_loop_empty_nonneg (as_ : list Z) :
  Forall (fun v => 0 <= v)%Z as_ -> forall i, (0 <= compare_loop as_ i [])%Z.
Proof.
  induction 1 as [|a as_ Ha _ IH]; intros i; cbn [compare_loop length Nat.leb];
    [lia|].
  destruct (Z.gtb_spec a 0); [lia|]. destruct (Z.ltb_spec a 0); [lia|apply IH].
Qed.

(** Against the empty tag no pin is ever older. *)
Lemma compareSemver_empty_nonneg (x : string) (rel : Z) :
  compareSemver x "" = (rel, None) -> (0 <= rel)%Z.
Proof.
  unfold compareSemver.
  pose proof (mkSemver_loop_nonneg
                x (Regexp.FindStringSubmatch semverRE x)
                (Regexp.SubexpNames semverRE) 0 [] (Forall_nil_2 _)) as Hxs.
  fold (mkSemver x) in Hxs. destruct (mkSemver x) as [xs err1].
  change (mkSemver "") with (@nil Z, @None error).
  destruct err1; [discriminate|]. intros Heq; inversion Heq; subst.
  unfold compareVectors. cbn [length Nat.leb].
  apply compare_loop_empty_nonneg, Hxs.
Qed.

(** Whatever the lookup answers, [checkEntry] never reports a newer
    version: the comparison is always against the empty tag. *)
Lemma checkEntry_never_newer
      (lookup : list Event -> string -> LookupOutcome)
      (e : SourceEntry) (log : list Event) (m : Msg) (log' : list Event) :
  checkEntry lookup e log = (inr m, log') -> colour m <> Red.
Proof.
  unfold checkEntry, json_Unmarshal_by_value.
  destruct (Str.nonempty (URL e));
    [intros Heq; inversion Heq; subst; discriminate|].
  destruct (parseRepo (Repo e)) as [err|[owner gitrepo]]; [discriminate|].
  destruct (lookup log _) as [c|c|c b|gitObj]; try discriminate.
  destruct (map_index gitObj "name") as [raw|];
    [|intros Heq; inversion Heq; subst; discriminate].
  destruct (compareSemver (Tag e) "") as [rel [err|]] eqn:Hcmp; [discriminate|].
  pose proof (compareSemver_empty_nonneg _ _ Hcmp) as Hrel.
  destruct (Z.ltb_spec rel 0); [lia|].
  intros Heq; inversion Heq; subst; discriminate.
Qed.

(** C1. With the pin 1.0.0 of github.com/foo/bar and a lookup that answers
    with the release name "1.1.0", [checkEntry] does not report a newer
    version: the name is decoded into a variable passed by value, the tag
    compared against stays empty, and the entry is reported up to date. *)
Theorem checkEntry_newer_release_reported_up_to_date :
  checkEntry (fun _ _ => Decoded {[ "name" := Some (json_string "1.1.0") ]})
             (mkEntry "github.com/foo/bar" "1.0.0" "") []
  = (inr (mkMsg Green "Up to date: github.com/foo/bar"),
     [EvGet "https://api.github.com/repos/foo/bar/releases/latest";
      EvCompare "1.0.0" ""]).
Proof. vm_compute. reflexivity. Qed.

(** ** The first attempt of the matcher *)

Module FirstMatch.
Import Syntax Regexp.

Lemma star_greedy (p : ascii -> bool) (u t : string) :
  Str.all p u = true -> starts_outside p t = true ->
  forall i k m,
    k (i + String.length u)%nat t = Some m ->
    star p i (u +:+ t) k = Some m.
Proof.
  intros Hu Ht. induction u as [|c u IH]; intros i k m Hk.
  - cbn [String.length] in Hk. rewrite Nat.add_0_r in Hk. cbn [String.append].
    destruct t as [|c t]; [exact Hk|]. cbn in Ht |- *.
    destruct (p c); [discriminate|exact Hk].
  - cbn in Hu. apply andb_true_iff in Hu as [Hc Hu].
    cbn [String.append star]. rewrite Hc, (IH Hu (S i) k m); [reflexivity|].
    cbn [String.length] in Hk. rewrite Nat.add_succ_r in Hk. exact Hk.
Qed.

Lemma first_match_run r i u t caps caps' :
  first_match r i u t caps caps' ->
  forall k m,
    k (i + String.length u)%nat t caps' = Some m ->
    run r i (u +:+ t) caps k = Some m.
Proof.
  induction 1 as [t caps|i caps|c i t caps|p i u t caps Hu Ht
                  |p i u t caps Hne Hu Ht
                  |r1 r2 i u1 u2 t caps caps1 caps2 _ IH1 _ IH2
                  |r i u t caps caps' _ IH|r i t caps Hnone
                  |idx name r i u t caps caps' _ IH];
    intros k m Hk; cbn [run].
  - exact Hk.
  - cbn in Hk |- *. rewrite Nat.add_0_r in Hk. exact Hk.
  - cbn in Hk |- *. rewrite Ascii.eqb_refl. rewrite Nat.add_1_r in Hk. exact Hk.
  - apply (star_greedy p u t Hu Ht). exact Hk.
  - destruct u as [|c u]; [discriminate|].
    cbn in Hu. apply andb_true_iff in Hu as [Hc Hu].
    cbn [String.append]. rewrite Hc.
    apply (star_greedy p u t Hu Ht).
    cbn [String.length] in Hk. rewrite Nat.add_succ_r in Hk. exact Hk.
  - rewrite StrFacts.app_assoc. apply IH1, IH2.
    rewrite StrFacts.length_app, Nat.add_assoc in Hk. exact Hk.
  - rewrite (IH k m Hk). reflexivity.
  - rewrite Hnone. cbn in Hk |- *. rewrite Nat.add_0_r in Hk. exact Hk.
  - apply IH.
    replace (i + String.length u - i)%nat with (String.length u) by lia.
    rewrite StrFacts.take_app_length. exact Hk.
Qed.

(** When the first attempt at offset 0 succeeds, it is the result. *)
Lemma FindStringSubmatch_first r u t caps' :
  first_match r 0 u t (replicate (S (NumSubexp r)) "") caps' ->
  FindStringSubmatch r (u +:+ t) = <[0%nat := u]> caps'.
Proof.
  intros H. unfold FindStringSubmatch. cbn [search].
  rewrite (first_match_run _ _ _ _ _ _ H _ (<[0%nat := u]> caps'));
    [reflexivity|].
  cbn [Nat.add]. rewrite Nat.sub_0_r, StrFacts.take_app_length. reflexivity.
Qed.

End FirstMatch.

(** ** mkSemver on a well-formed tag *)

Lemma ParseUint_shape (d : string) (v : Z) :
  ParseUint d = Some v ->
  Str.nonempty d = true /\ Str.all isDigit d = true /\ (0 <= v)%Z.
Proof.
  unfold ParseUint. destruct d as [|c s]; [discriminate|]. intros H.
  split; [reflexivity|]. split; [apply (digits_from_all _ _ _ H)|].
  apply (digits_from_nonneg _ _ _ (Z.le_refl 0) H).
Qed.

Lemma ParseInt_of_ParseUint (d : string) (v : Z) :
  ParseUint d = Some v -> (v < 2 ^ 31)%Z -> ParseInt d = inr v.
Proof.
  intros H Hv. destruct (ParseUint_shape d v H) as (Hne & Hall & _).
  destruct d as [|c s]; [discriminate|].
  cbn in Hall. apply andb_true_iff in Hall as [Hc _].
  rewrite (ParseInt_unsigned c s Hc), H.
  destruct (Z.leb_spec (2 ^ 31) v); [lia|reflexivity].
Qed.

Lemma starts_outside_digits (d t : string) :
  Str.nonempty d = true -> Str.all isDigit d = true ->
  Syntax.starts_outside notDigit (d +:+ t) = true.
Proof.
  destruct d as [|c d]; [discriminate|]. cbn. unfold notDigit.
  intros _ [-> _]%andb_true_iff. reflexivity.
Qed.

(** One turn of the loop of [mkSemver] on a named slot that holds the
    digits [d], and on a slot that is skipped. *)
Lemma mkSemver_loop_part s m n names i out d v :
  Str.nonempty n = true -> (i <? length m)%nat = true -> nth i m "" = d ->
  Str.nonempty d = true -> ParseInt d = inr v -> (0 <= v)%Z ->
  mkSemver_loop s m (n :: names) i out
  = mkSemver_loop s m names (S i) (out ++ [v]).
Proof.
  intros Hn Hi Hd Hne Hp Hv. cbn [mkSemver_loop].
  rewrite Hn, Hi, Hd, Hne, Hp. cbn [andb].
  destruct (Z.ltb_spec v 0); [lia|reflexivity].
Qed.

Lemma mkSemver_loop_skip s m n names i out :
  Str.nonempty n && (i <? length m)%nat && Str.nonempty (nth i m "") = false ->
  mkSemver_loop s m (n :: names) i out = mkSemver_loop s m names (S i) out.
Proof. intros H. cbn [mkSemver_loop]. rewrite H. reflexivity. Qed.

Import Syntax.

Ltac fm_side :=
  match goal with
  | |- Str.nonempty _ = true => assumption
  | |- Str.all _ _ = true => assumption
  | |- starts_outside notDigit _ = true =>
      rewrite ?StrFacts.app_assoc; apply starts_outside_digits; assumption
  | |- starts_outside _ _ = true => reflexivity
  end.

Ltac fm :=
  lazymatch goal with
  | |- first_match Bot _ _ _ _ _ => apply fm_bot
  | |- first_match Eot _ _ _ _ _ => apply fm_eot
  | |- first_match (Chr _) _ _ _ _ _ => apply fm_chr
  | |- first_match (StarCls _) _ _ _ _ _ => apply fm_star; fm_side
  | |- first_match (PlusCls _) _ _ _ _ _ => apply fm_plus; fm_side
  | |- first_match (Cat _ _) _ _ _ _ _ => eapply fm_cat; [fm|fm]
  | |- first_match (Opt _) _ "" _ _ _ => apply fm_opt_skip; intros; reflexivity
  | |- first_match (Opt _) _ _ _ _ _ => apply fm_opt_take; fm
  | |- first_match (Group _ _ _) _ _ _ _ _ => eapply fm_group; fm
  end.

Ltac semver_arity T :=
  match goal with
  | |- Regexp.FindStringSubmatch semverRE ?s = _ =>
      replace s with (T +:+ "")
        by (cbn; rewrite ?StrFacts.app_nil_r; reflexivity)
  end;
  erewrite FirstMatch.FindStringSubmatch_first; [|unfold semverRE; fm];
  cbn; rewrite ?StrFacts.app_nil_r; reflexivity.

Lemma semverRE_match (p d1 : string) (rest : list string) :
  Str.all notDigit p = true ->
  Forall digits (d1 :: rest) ->
  (length rest <= 4)%nat ->
  Regexp.FindStringSubmatch semverRE (p +:+ Join (d1 :: rest) ".")
  = semver_slots (p +:+ Join (d1 :: rest) ".") d1 rest.
Proof.
  intros Hp Hd Hlen.
  repeat match goal with
         | H : Forall digits (_ :: _) |- _ =>
             apply Forall_cons in H as [[? ?] H]
         end.
  destruct rest as [|d2 [|d3 [|d4 [|d5 [|d6 rest]]]]];
    [| | | | |cbn in Hlen; lia];
    repeat match goal with
           | H : Forall digits (_ :: _) |- _ =>
               apply Forall_cons in H as [[? ?] H]
           end.
  - semver_arity ("" +:+ p +:+ d1 +:+ "" +:+ "" +:+ "" +:+ "" +:+ "").
  - semver_arity ("" +:+ p +:+ d1 +:+ ("." +:+ d2) +:+ "" +:+ "" +:+ "" +:+ "").
  - semver_arity ("" +:+ p +:+ d1 +:+ ("." +:+ d2) +:+ ("." +:+ d3) +:+ ""
                  +:+ "" +:+ "").
  - semver_arity ("" +:+ p +:+ d1 +:+ ("." +:+ d2) +:+ ("." +:+ d3)
                  +:+ ("." +:+ d4) +:+ "" +:+ "").
  - semver_arity ("" +:+ p +:+ d1 +:+ ("." +:+ d2) +:+ ("." +:+ d3)
                  +:+ ("." +:+ d4) +:+ ("." +:+ d5) +:+ "").
Qed.

Ltac mkSemver_steps :=
  repeat match goal with
         | |- context [mkSemver_loop ?s ?m (?n :: ?names) ?i ?out] =>
             first
               [ rewrite (mkSemver_loop_skip s m n names i out) by reflexivity
               | match goal with
                 | H : ParseInt ?d = inr ?v |- _ =>
                     rewrite (mkSemver_loop_part s m n names i out d v)
                       by (reflexivity || assumption)
                 end ]
         end.

Lemma mkSemver_components (p : string) (ds : list string) (vs : list Z) :
  Str.all notDigit p = true ->
  Forall2 (fun d v => ParseUint d = Some v /\ (v < 2 ^ 31)%Z) ds vs ->
  (1 <= length ds <= 5)%nat ->
  mkSemver (p +:+ Join ds ".") = (vs, None).
Proof.
  intros Hp Hds Hlen.
  destruct ds as [|d1 rest]; [cbn in Hlen; lia|].
  assert (Hdigits : Forall digits (d1 :: rest)).
  { clear -Hds. induction Hds as [|d v ds vs [Hd _] _ IH]; constructor; [|exact IH].
    destruct (ParseUint_shape d v Hd) as (? & ? & _). split; assumption. }
  unfold mkSemver.
  rewrite (semverRE_match p d1 rest Hp Hdigits ltac:(cbn in Hlen; lia)).
  clear Hdigits.
  change (Regexp.SubexpNames semverRE)
    with [""; "first"; ""; ""; "second"; ""; "third"; ""; "fourth"; "";
          "fifth"].
  destruct rest as [|d2 [|d3 [|d4 [|d5 [|d6 rest]]]]];
    [| | | | |cbn in Hlen; lia];
    repeat match goal with
           | H : Forall2 _ (_ :: _) _ |- _ =>
               apply Forall2_cons_inv_l in H as (? & ? & [? ?] & H & ->)
           | H : Forall2 _ [] _ |- _ => apply Forall2_nil_inv_l in H as ->
           end;
    repeat match goal with
           | H : ParseUint ?d = Some ?v, Hv : (?v < 2 ^ 31)%Z |- _ =>
               pose proof (ParseInt_of_ParseUint d v H Hv);
               destruct (ParseUint_shape d v H) as (? & _ & ?);
               clear H
           end;
    mkSemver_steps; reflexivity.
Qed.

(** C5, as stated, fails: content after the components is not ignored. *)
Lemma mkSemver_trailing_content :
  mkSemver "1.2.3-rc1" = ([], None)
  /\ mkSemver "1.2.3.4.5.6" = ([], None).
Proof. split; vm_compute; reflexivity. Qed.

(** The tags that [semverRE] matches are the well-formed ones. *)
Lemma Join_cons (d : string) (ds : list string) :
  Join (d :: ds) "." = d +:+ dotted ds.
Proof.
  revert d. induction ds as [|e ds IH]; intros d.
  - cbn. rewrite StrFacts.app_nil_r. reflexivity.
  - change (Join (d :: e :: ds) ".") with (d +:+ "." +:+ Join (e :: ds) ".").
    rewrite IH. reflexivity.
Qed.

Lemma dotted_app (a b : list string) : dotted (a ++ b) = dotted a +:+ dotted b.
Proof.
  induction a as [|e a IH]; [reflexivity|].
  cbn [app dotted fold_right]. fold (dotted (a ++ b)). fold (dotted a).
  rewrite IH, !StrFacts.app_assoc. reflexivity.
Qed.

Lemma component_shape (i j : nat) (n x : string) :
  shape (Opt (Group i "" (Chr "." :+: Group j n (PlusCls isDigit)))) x ->
  exists l, x = dotted l /\ Forall digits l /\ (length l <= 1)%nat.
Proof.
  intros [->|(a & b & -> & -> & Hb)].
  - exists []. repeat split; [constructor|cbn; lia].
  - exists [b]. cbn. rewrite StrFacts.app_nil_r.
    repeat split; [constructor; [exact Hb|constructor]|lia].
Qed.

Lemma semverRE_shape (s : string) : shape semverRE s -> well_formed s.
Proof.
  unfold semverRE. intros H.
  destruct H as (u0 & r0 & -> & -> & H).
  destruct H as (p & r1 & -> & Hp & H).
  destruct H as (d1 & r2 & -> & Hd1 & H).
  destruct H as (x2 & r3 & -> & (l2 & -> & Hl2 & Hn2)%component_shape & H).
  destruct H as (x3 & r4 & -> & (l3 & -> & Hl3 & Hn3)%component_shape & H).
  destruct H as (x4 & r5 & -> & (l4 & -> & Hl4 & Hn4)%component_shape & H).
  destruct H as (x5 & r6 & -> & (l5 & -> & Hl5 & Hn5)%component_shape & ->).
  exists p, (d1 :: l2 ++ l3 ++ l4 ++ l5).
  rewrite Join_cons, !dotted_app, StrFacts.app_nil_r. cbn [String.append].
  repeat split.
  - exact Hp.
  - constructor; [exact Hd1|]. rewrite !Forall_app. auto.
  - cbn. lia.
  - cbn [length]. rewrite !length_app. lia.
Qed.

(** The loop of [mkSemver] only ever appends. *)
Lemma mkSemver_loop_prefix (s : string) (m : list string) (names : list string) :
  forall i out, exists l, fst (mkSemver_loop s m names i out) = out ++ l.
Proof.
  induction names as [|n names IH]; intros i out; cbn [mkSemver_loop].
  - exists []. cbn. rewrite app_nil_r. reflexivity.
  - destruct (Str.nonempty n && (i <? length m)%nat && Str.nonempty (nth i m ""));
      [|apply IH].
    destruct (ParseInt (nth i m "")) as [err|part];
      [exists []; cbn; rewrite app_nil_r; reflexivity|].
    destruct (part <? 0)%Z;
      [exists []; cbn; rewrite app_nil_r; reflexivity|].
    destruct (IH (S i) (out ++ [part])) as [l Hl].
    exists (part :: l). rewrite Hl, <- app_assoc. reflexivity.
Qed.

Lemma mkSemver_loop_cons s m n names i out :
  mkSemver_loop s m (n :: names) i out
  = if Str.nonempty n && (i <? length m)%nat && Str.nonempty (nth i m "")
    then
      match ParseInt (nth i m "") with
      | inl err => (out, Some (ErrParsePart s err))
      | inr part =>
          if (part <? 0)%Z then (out, Some (ErrNegativePart s))
          else mkSemver_loop s m names (S i) (out ++ [part])
      end
    else mkSemver_loop s m names (S i) out.
Proof. reflexivity. Qed.

(** A well-formed tag never gives the empty vector without an error. *)
Lemma well_formed_not_empty (s : string) :
  well_formed s -> mkSemver s <> ([], None).
Proof.
  intros (p & ds & -> & Hp & Hds & Hlen).
  destruct ds as [|d1 rest]; [cbn in Hlen; lia|].
  unfold mkSemver.
  rewrite (semverRE_match p d1 rest Hp Hds ltac:(cbn in Hlen; lia)).
  apply Forall_cons in Hds as [[Hne _] _].
  change (Regexp.SubexpNames semverRE)
    with [""; "first"; ""; ""; "second"; ""; "third"; ""; "fourth"; "";
          "fifth"].
  rewrite mkSemver_loop_skip by reflexivity.
  rewrite mkSemver_loop_cons.
  change (Str.nonempty "first") with true.
  cbn [semver_slots length nth Nat.ltb Nat.leb andb].
  rewrite Hne. destruct (ParseInt d1) as [err|part]; [discriminate|].
  destruct (part <? 0)%Z; [discriminate|].
  match goal with
  | |- mkSemver_loop ?s ?m ?names ?i ?out <> _ =>
      destruct (mkSemver_loop_prefix s m names i out) as [l Hl];
      destruct (mkSemver_loop s m names i out) as [out' err']
  end.
  cbn in Hl. subst out'. discriminate.
Qed.

Lemma ParseInt_overflow (d : string) (v : Z) :
  ParseUint d = Some v -> (2 ^ 31 <= v)%Z -> ParseInt d = inl ErrRange.
Proof.
  intros H Hv. destruct (ParseUint_shape d v H) as (Hne & Hall & _).
  destruct d as [|c s]; [discriminate|].
  cbn in Hall. apply andb_true_iff in Hall as [Hc _].
  rewrite (ParseInt_unsigned c s Hc), H.
  destruct (Z.leb_spec (2 ^ 31) v); [reflexivity|lia].
Qed.

Lemma mkSemver_loop_fail s m n names i out d e :
  Str.nonempty n = true -> (i <? length m)%nat = true -> nth i m "" = d ->
  Str.nonempty d = true -> ParseInt d = inl e ->
  mkSemver_loop s m (n :: names) i out = (out, Some (ErrParsePart s e)).
Proof.
  intros Hn Hi Hd Hne Hp. cbn [mkSemver_loop].
  rewrite Hn, Hi, Hd, Hne, Hp. reflexivity.
Qed.

(** A well-formed tag with a component that does not fit in 32 bits: the
    loop stops there, with the components before it and the range error. *)
Lemma mkSemver_overflow
        (p : string) (pre : list string) (d : string) (post : list string)
        (vs : list Z) (v : Z) :
  Str.all notDigit p = true ->
  Forall2 (fun d v => ParseUint d = Some v /\ (v < 2 ^ 31)%Z) pre vs ->
  ParseUint d = Some v -> (2 ^ 31 <= v)%Z ->
  Forall digits post ->
  (length pre + 1 + length post <= 5)%nat ->
  mkSemver (p +:+ Join (pre ++ d :: post) ".")
  = (vs, Some (ErrParsePart (p +:+ Join (pre ++ d :: post) ".") ErrRange)).
Proof.
  intros Hp Hpre Hd Hv Hpost Hlen.
  assert (Hdigits : Forall digits (pre ++ d :: post)).
  { apply Forall_app. split.
    - clear -Hpre. induction Hpre as [|x y l l' [Hx _] _ IH]; constructor;
        [|exact IH].
      destruct (ParseUint_shape x y Hx) as (? & ? & _). split; assumption.
    - constructor; [|exact Hpost].
      destruct (ParseUint_shape d v Hd) as (? & ? & _). split; assumption. }
  pose proof (ParseInt_overflow d v Hd Hv) as Hfail.
  destruct (ParseUint_shape d v Hd) as (Hdne & _ & _).
  unfold mkSemver.
  change (Regexp.SubexpNames semverRE)
    with [""; "first"; ""; ""; "second"; ""; "third"; ""; "fourth"; "";
          "fifth"].
  destruct pre as [|d1 [|d2 [|d3 [|d4 [|d5 pre]]]]];
    try (cbn in Hlen; lia);
    repeat match goal with
           | H : Forall2 _ (_ :: _) _ |- _ =>
               apply Forall2_cons_inv_l in H as (? & ? & [? ?] & H & ->)
           | H : Forall2 _ [] _ |- _ => apply Forall2_nil_inv_l in H as ->
           end;
    repeat match goal with
           | H : ParseUint ?d = Some ?v, Hv : (?v < 2 ^ 31)%Z |- _ =>
               pose proof (ParseInt_of_ParseUint d v H Hv);
               destruct (ParseUint_shape d v H) as (? & _ & ?);
               clear H
           end;
    destruct post as [|e1 [|e2 [|e3 [|e4 [|e5 post]]]]];
    try (cbn in Hlen; lia);
    cbn [app] in Hdigits |- *;
    match goal with
    | H : Forall digits (?a :: ?l) |- _ =>
        rewrite (semverRE_match p a l Hp H ltac:(cbn in Hlen |- *; lia))
    end;
    mkSemver_steps;
    match goal with
    | |- context [mkSemver_loop ?s ?m (?n :: ?names) ?i ?out] =>
        rewrite (mkSemver_loop_fail s m n names i out d ErrRange)
          by (reflexivity || assumption)
    end;
    reflexivity.
Qed.

(** C5, amended. A tag is well formed when it is made of bytes that are not
    digits followed by one to five runs of digits separated by dots, and
    nothing else. For a well-formed tag whose runs all denote numbers below
    2^31, [mkSemver] succeeds and returns the numbers in order. For every tag
    that is not well formed, as one with content after the components,
    [mkSemver] returns the empty vector and no error, and it does so for
    no well-formed tag. For a well-formed tag with a run that denotes 2^31
    or more, [mkSemver] returns the numbers before the first such run
    together with the range error. *)
Theorem mkSemver_well_formed :
  (forall p ds vs,
      Str.all notDigit p = true ->
      Forall2 (fun d v => ParseUint d = Some v /\ (v < 2 ^ 31)%Z) ds vs ->
      (1 <= length ds <= 5)%nat ->
      mkSemver (p +:+ Join ds ".") = (vs, None))
  /\ (forall s, ~ well_formed s -> mkSemver s = ([], None))
  /\ (forall s, well_formed s -> mkSemver s <> ([], None))
  /\ (forall p pre d post vs v,
         Str.all notDigit p = true ->
         Forall2 (fun d v => ParseUint d = Some v /\ (v < 2 ^ 31)%Z) pre vs ->
         ParseUint d = Some v -> (2 ^ 31 <= v)%Z ->
         Forall digits post ->
         (length pre + 1 + length post <= 5)%nat ->
         mkSemver (p +:+ Join (pre ++ d :: post) ".")
         = (vs, Some (ErrParsePart (p +:+ Join (pre ++ d :: post) ".")
                                   ErrRange))).
Proof.
  split; [exact mkSemver_components|].
  split; [|split; [exact well_formed_not_empty|exact mkSemver_overflow]].
  intros s Hs. destruct (semverRE_sound s) as [Hnil|[_ Hshape]].
  - unfold mkSemver. rewrite Hnil. reflexivity.
  - destruct (Hs (semverRE_shape s Hshape)).
Qed.

Lemma mkSemver_well_formed_witness :
  mkSemver ("release-" +:+ Join ["2"; "0"; "1"] ".") = ([2; 0; 1]%Z, None)
  /\ mkSemver "1.2.3-rc1" = ([], None)
  /\ mkSemver ("v" +:+ Join ["1"; "2"] ".") <> ([], None)
  /\ mkSemver ("" +:+ Join (["1"] ++ "2147483648" :: []) ".")
     = ([1]%Z,
        Some (ErrParsePart ("" +:+ Join (["1"] ++ "2147483648" :: []) ".")
                           ErrRange)).
Proof.
  split; [|split; [|split]].
  - apply (proj1 mkSemver_well_formed "release-" ["2"; "0"; "1"] [2; 0; 1]%Z).
    + reflexivity.
    + repeat constructor.
    + cbn. lia.
  - apply (proj1 (proj2 mkSemver_well_formed) "1.2.3-rc1").
    intros Hwf. apply (well_formed_not_empty _ Hwf). vm_compute. reflexivity.
  - apply (proj1 (proj2 (proj2 mkSemver_well_formed))
                 ("v" +:+ Join ["1"; "2"] ".")).
    exists "v", ["1"; "2"]. repeat split; try reflexivity; cbn; try lia.
    repeat constructor.
  - apply (proj2 (proj2 (proj2 mkSemver_well_formed))
                 "" ["1"] "2147483648" [] [1]%Z 2147483648%Z).
    + reflexivity.
    + repeat constructor.
    + reflexivity.
    + vm_compute. discriminate.
    + constructor.
    + cbn. lia.
Defined.

(** * Further properties *)

(** ** mkSemver: the vector and the errors *)

Lemma digits_from_total (s : string) :
  Str.all isDigit s = true -> forall acc, exists v, digits_from acc s = Some v.
Proof.
  induction s as [|c s IH]; cbn [Str.all digits_from]; intros H acc.
  - exists acc. reflexivity.
  - apply andb_true_iff in H as [-> Hs]. apply (IH Hs).
Qed.

(** On a run of digits [strconv.ParseInt] can only fail for the range. *)
Lemma ParseInt_digits (d : string) :
  Str.nonempty d = true -> Str.all isDigit d = true ->
  ParseInt d = inl ErrRange \/ exists v, ParseInt d = inr v.
Proof.
  destruct d as [|c s]; [discriminate|]. intros _ Hall.
  pose proof Hall as Hall'. cbn in Hall'.
  apply andb_true_iff in Hall' as [Hc _].
  rewrite (ParseInt_unsigned c s Hc). unfold ParseUint.
  destruct (digits_from_total _ Hall 0%Z) as [un ->].
  destruct (2 ^ 31 <=? un)%Z; [left|right; exists un]; reflexivity.
Qed.

(** What [strconv.ParseInt] returns fits in 32 bits. *)
Lemma ParseInt_range (s : string) (v : Z) :
  ParseInt s = inr v -> (- 2 ^ 31 <= v < 2 ^ 31)%Z.
Proof.
  unfold ParseInt. destruct s as [|c rest]; [discriminate|].
  destruct (ParseUint _) as [un|] eqn:Hun; [|discriminate].
  destruct (ParseUint_shape _ _ Hun) as (_ & _ & Hpos).
  destruct (Ascii.eqb c "-"); cbn [negb andb].
  - destruct (Z.ltb_spec (2 ^ 31) un); [discriminate|].
    intros Heq; inversion Heq; subst. lia.
  - destruct (Z.leb_spec (2 ^ 31) un); [discriminate|].
    intros Heq; inversion Heq; subst. lia.
Qed.

Lemma mkSemver_loop_error (s : string) (m : list string) (names : list string) :
  forall i out,
    (forall j n, names !! j = Some n -> Str.nonempty n = true ->
                 Str.all isDigit (nth (i + j) m "") = true) ->
    snd (mkSemver_loop s m names i out) = None
    \/ snd (mkSemver_loop s m names i out) = Some (ErrParsePart s ErrRange).
Proof.
  induction names as [|n names IH]; intros i out Hm; cbn [mkSemver_loop];
    [left; reflexivity|].
  assert (Hrest : forall out',
             snd (mkSemver_loop s m names (S i) out') = None
             \/ snd (mkSemver_loop s m names (S i) out')
                = Some (ErrParsePart s ErrRange)).
  { intros out'. apply IH. intros j n' Hj Hn'.
    replace (S i + j)%nat with (i + S j)%nat by lia. apply (Hm (S j) n' Hj Hn'). }
  destruct (Str.nonempty n) eqn:Hn; cbn [andb]; [|apply Hrest].
  destruct (i <? length m)%nat; cbn [andb]; [|apply Hrest].
  destruct (Str.nonempty (nth i m "")) eqn:Hne; [|apply Hrest].
  specialize (Hm 0%nat n eq_refl Hn). rewrite Nat.add_0_r in Hm.
  destruct (ParseInt_digits _ Hne Hm) as [->|[v Hv]]; [right; reflexivity|].
  rewrite Hv. pose proof (ParseInt_digits_nonneg _ _ Hne Hm Hv).
  destruct (Z.ltb_spec v 0); [lia|apply Hrest].
Qed.

(** X1. Whatever the input, [mkSemver] either succeeds or fails with the
    range error of [strconv.ParseInt] on the input: no other error is ever
    returned. *)
Theorem mkSemver_only_range_error (s : string) :
  snd (mkSemver s) = None
  \/ snd (mkSemver s) = Some (ErrParsePart s ErrRange).
Proof.
  unfold mkSemver. apply mkSemver_loop_error.
  intros j n Hj Hn. cbn [Nat.add]. apply semverRE_named_slots.
  rewrite (nth_lookup_Some _ _ _ _ Hj). exact Hn.
Qed.

(** The number of names that are not empty. *)
Lemma mkSemver_loop_length (s : string) (m : list string) (names : list string) :
  forall i out,
    (length (fst (mkSemver_loop s m names i out))
     <= length out + length (List.filter Str.nonempty names))%nat.
Proof.
  induction names as [|n names IH]; intros i out; cbn [mkSemver_loop List.filter].
  - cbn. lia.
  - destruct (Str.nonempty n); cbn [andb length].
    + destruct ((i <? length m)%nat && Str.nonempty (nth i m ""));
        [|specialize (IH (S i) out); lia].
      destruct (ParseInt (nth i m "")) as [err|part]; [cbn; lia|].
      destruct (part <? 0)%Z; [cbn; lia|].
      specialize (IH (S i) (out ++ [part])). rewrite length_app in IH.
      cbn [length] in IH. lia.
    + apply IH.
Qed.

Lemma mkSemver_loop_bounds (s : string) (m : list string) (names : list string) :
  forall i out,
    Forall (fun v => 0 <= v < 2 ^ 31)%Z out ->
    Forall (fun v => 0 <= v < 2 ^ 31)%Z (fst (mkSemver_loop s m names i out)).
Proof.
  induction names as [|n names IH]; intros i out Hout; cbn [mkSemver_loop];
    [exact Hout|].
  destruct (Str.nonempty n && (i <? length m)%nat && Str.nonempty (nth i m ""));
    [|apply IH, Hout].
  destruct (ParseInt (nth i m "")) as [err|part] eqn:Hp; [exact Hout|].
  destruct (Z.ltb_spec part 0); [exact Hout|].
  apply IH, Forall_app. split; [exact Hout|].
  pose proof (ParseInt_range _ _ Hp). constructor; [lia|constructor].
Qed.

(** X2. The vector that [mkSemver] returns, with or without an error, has at
    most five components, each one at least 0 and below 2^31. *)
Theorem mkSemver_vector_bounds (s : string) :
  (length (fst (mkSemver s)) <= 5)%nat
  /\ Forall (fun v => 0 <= v < 2 ^ 31)%Z (fst (mkSemver s)).
Proof.
  unfold mkSemver. split.
  - apply (mkSemver_loop_length s _ (Regexp.SubexpNames semverRE) 0 []).
  - apply mkSemver_loop_bounds. constructor.
Qed.

(** ** compareSemver: range, swapped operands, prefixes and zeros *)

Lemma compare_loop_range (as_ : list Z) :
  forall i bs, compare_loop as_ i bs = (-1)%Z
               \/ compare_loop as_ i bs = 0%Z
               \/ compare_loop as_ i bs = 1%Z.
Proof.
  induction as_ as [|a as_ IH]; intros i bs; cbn [compare_loop]; [auto|].
  destruct (_ >? _)%Z; [auto|]. destruct (_ <? _)%Z; [auto|]. apply IH.
Qed.

Lemma compareSemver_error_zero (x y : string) :
  snd (compareSemver x y) <> None -> fst (compareSemver x y) = 0%Z.
Proof.
  unfold compareSemver.
  destruct (mkSemver x) as [xs [e1|]], (mkSemver y) as [ys [e2|]];
    cbn [fst snd]; congruence.
Qed.

(** X3. [compareSemver] returns -1, 0 or 1, and 0 whenever it returns an
    error. *)
Theorem compareSemver_range (x y : string) :
  (fst (compareSemver x y) = (-1)%Z
   \/ fst (compareSemver x y) = 0%Z
   \/ fst (compareSemver x y) = 1%Z)
  /\ (snd (compareSemver x y) <> None -> fst (compareSemver x y) = 0%Z).
Proof.
  unfold compareSemver.
  destruct (mkSemver x) as [xs [e1|]], (mkSemver y) as [ys [e2|]];
    cbn [fst snd]; try (split; [auto|reflexivity]).
  split; [|congruence]. unfold compareVectors.
  destruct (length ys <=? length xs)%nat; apply compare_loop_range.
Qed.

Lemma compareSemver_range_witness :
  fst (compareSemver "1.0" "2.99999999999") = 0%Z.
Proof.
  apply (proj2 (compareSemver_range "1.0" "2.99999999999")).
  vm_compute. discriminate.
Defined.

(** X4. Swapping the operands: the result changes sign when both vectors
    have the same number of components, and stays the same when they have
    not. A tag compared with itself gives 0. *)
Theorem compareSemver_swapped (x y : string) :
  (length (fst (mkSemver x)) = length (fst (mkSemver y)) ->
   fst (compareSemver x y) = (- fst (compareSemver y x))%Z)
  /\ (length (fst (mkSemver x)) <> length (fst (mkSemver y)) ->
      fst (compareSemver x y) = fst (compareSemver y x))
  /\ fst (compareSemver x x) = 0%Z.
Proof.
  unfold compareSemver. repeat split.
  - destruct (mkSemver x) as [xs [e1|]], (mkSemver y) as [ys [e2|]];
      cbn [fst snd]; try reflexivity. apply compareVectors_same_length.
  - destruct (mkSemver x) as [xs [e1|]], (mkSemver y) as [ys [e2|]];
      cbn [fst snd]; try reflexivity. apply compareVectors_other_length.
  - destruct (mkSemver x) as [xs [e1|]]; cbn [fst]; [reflexivity|].
    apply compareVectors_refl.
Qed.

Lemma compareSemver_swapped_witness :
  fst (compareSemver "1.2.9" "1.3.0") = (- fst (compareSemver "1.3.0" "1.2.9"))%Z
  /\ fst (compareSemver "v2" "1.3.0") = fst (compareSemver "1.3.0" "v2").
Proof.
  split.
  - apply (proj1 (compareSemver_swapped "1.2.9" "1.3.0")). reflexivity.
  - apply (proj1 (proj2 (compareSemver_swapped "v2" "1.3.0"))).
    vm_compute. discriminate.
Defined.

(** X5. On two well-formed tags whose components are below 2^31 the result
    is the comparison of the two vectors of numbers, whatever the prefixes:
    a prefix made of bytes that are not digits never changes the result. *)
Theorem compareSemver_ignores_prefix
        (p1 p2 : string) (ds1 ds2 : list string) (vs1 vs2 : list Z) :
  Str.all notDigit p1 = true -> Str.all notDigit p2 = true ->
  Forall2 (fun d v => ParseUint d = Some v /\ (v < 2 ^ 31)%Z) ds1 vs1 ->
  Forall2 (fun d v => ParseUint d = Some v /\ (v < 2 ^ 31)%Z) ds2 vs2 ->
  (1 <= length ds1 <= 5)%nat -> (1 <= length ds2 <= 5)%nat ->
  compareSemver (p1 +:+ Join ds1 ".") (p2 +:+ Join ds2 ".")
  = (compareVectors vs1 vs2, None)
  /\ compareSemver (p1 +:+ Join ds1 ".") (p2 +:+ Join ds2 ".")
     = compareSemver (Join ds1 ".") (Join ds2 ".").
Proof.
  intros Hp1 Hp2 H1 H2 Hl1 Hl2.
  assert (Hcmp : forall q1 q2,
             Str.all notDigit q1 = true -> Str.all notDigit q2 = true ->
             compareSemver (q1 +:+ Join ds1 ".") (q2 +:+ Join ds2 ".")
             = (compareVectors vs1 vs2, None)).
  { intros q1 q2 Hq1 Hq2. unfold compareSemver.
    rewrite (mkSemver_components q1 ds1 vs1 Hq1 H1 Hl1),
      (mkSemver_components q2 ds2 vs2 Hq2 H2 Hl2). reflexivity. }
  split; [apply Hcmp; assumption|].
  rewrite (Hcmp p1 p2 Hp1 Hp2). symmetry. apply (Hcmp "" ""); reflexivity.
Qed.

Lemma compareSemver_ignores_prefix_witness :
  compareSemver ("release-" +:+ Join ["2"; "0"; "1"] ".")
                ("v" +:+ Join ["2"; "1"] ".")
  = (compareVectors [2; 0; 1]%Z [2; 1]%Z, None)
  /\ compareSemver ("release-" +:+ Join ["2"; "0"; "1"] ".")
                   ("v" +:+ Join ["2"; "1"] ".")
     = compareSemver (Join ["2"; "0"; "1"] ".") (Join ["2"; "1"] ".").
Proof.
  apply (compareSemver_ignores_prefix "release-" "v" ["2"; "0"; "1"] ["2"; "1"]
                                      [2; 0; 1]%Z [2; 1]%Z);
    try reflexivity; try (repeat constructor); cbn; lia.
Defined.

Lemma compareVectors_zeros (vs : list Z) (k : nat) :
  compareVectors vs (vs ++ replicate k 0%Z) = 0%Z
  /\ compareVectors (vs ++ replicate k 0%Z) vs = 0%Z.
Proof.
  assert (Hlong : compare_aligned (vs ++ replicate k 0%Z)
                    (pad_right (length (vs ++ replicate k 0%Z)) vs) = 0%Z).
  { unfold pad_right. rewrite length_app, length_replicate.
    replace (length vs + k - length vs)%nat with k by lia.
    apply compare_aligned_refl. }
  assert (Hshort : (length (vs ++ replicate k 0%Z) <= length vs)%nat ->
                   compare_aligned vs (pad_right (length vs) (vs ++ replicate k 0%Z))
                   = 0%Z).
  { rewrite length_app, length_replicate. intros Hk.
    assert (k = 0%nat) as -> by lia. cbn [replicate]. unfold pad_right.
    rewrite app_nil_r, Nat.sub_diag. cbn [replicate]. rewrite app_nil_r.
    apply compare_aligned_refl. }
  rewrite !compareVectors_aligned.
  destruct (Nat.leb_spec (length (vs ++ replicate k 0%Z)) (length vs)),
    (Nat.leb_spec (length vs) (length (vs ++ replicate k 0%Z)));
    split; auto.
  rewrite length_app in *. lia.
Qed.

(** X6. Components 0 at the end do not count: a well-formed tag equals the
    same tag followed by further components 0, in both orders. *)
Theorem compareSemver_trailing_zeros
        (p : string) (ds : list string) (vs : list Z) (k : nat) :
  Str.all notDigit p = true ->
  Forall2 (fun d v => ParseUint d = Some v /\ (v < 2 ^ 31)%Z) ds vs ->
  (1 <= length ds)%nat -> (length ds + k <= 5)%nat ->
  compareSemver (p +:+ Join ds ".") (p +:+ Join (ds ++ replicate k "0") ".")
  = (0%Z, None)
  /\ compareSemver (p +:+ Join (ds ++ replicate k "0") ".") (p +:+ Join ds ".")
     = (0%Z, None).
Proof.
  intros Hp Hds Hl1 Hl2.
  assert (Hz : Forall2 (fun d v => ParseUint d = Some v /\ (v < 2 ^ 31)%Z)
                       (ds ++ replicate k "0") (vs ++ replicate k 0%Z)).
  { apply Forall2_app; [exact Hds|]. clear. induction k; constructor; auto.
    split; [reflexivity|lia]. }
  assert (Hlz : (1 <= length (ds ++ replicate k "0") <= 5)%nat).
  { rewrite length_app, length_replicate. lia. }
  unfold compareSemver.
  rewrite (mkSemver_components p ds vs Hp Hds ltac:(lia)),
    (mkSemver_components p _ _ Hp Hz Hlz).
  destruct (compareVectors_zeros vs k) as [-> ->]. split; reflexivity.
Qed.

Lemma compareSemver_trailing_zeros_witness :
  compareSemver ("v" +:+ Join ["1"; "2"] ".")
                ("v" +:+ Join (["1"; "2"] ++ replicate 3 "0") ".")
  = (0%Z, None)
  /\ compareSemver ("v" +:+ Join (["1"; "2"] ++ replicate 3 "0") ".")
                   ("v" +:+ Join ["1"; "2"] ".")
     = (0%Z, None).
Proof.
  apply (compareSemver_trailing_zeros "v" ["1"; "2"] [1; 2]%Z 3);
    try reflexivity; try (repeat constructor); cbn; lia.
Defined.

(** X7. A second operand that [semverRE] does not match counts as the empty
    vector: the result is the one against the empty tag, and it is never
    negative. *)
Theorem compareSemver_unmatched (x y : string) :
  ~ well_formed y ->
  compareSemver x y = compareSemver x ""
  /\ (0 <= fst (compareSemver x y))%Z.
Proof.
  intros Hy.
  assert (Hempty : mkSemver y = ([], None)).
  { destruct (semverRE_sound y) as [Hnil|[_ Hshape]].
    - unfold mkSemver. rewrite Hnil. reflexivity.
    - destruct (Hy (semverRE_shape y Hshape)). }
  assert (Heq : compareSemver x y = compareSemver x "").
  { unfold compareSemver. rewrite Hempty.
    change (mkSemver "") with (@nil Z, @None error). reflexivity. }
  split; [exact Heq|]. rewrite Heq.
  destruct (compareSemver x "") as [rel [err|]] eqn:Hc; cbn [fst].
  - pose proof (compareSemver_error_zero x "") as H0. rewrite Hc in H0.
    cbn in H0. rewrite H0; [lia|discriminate].
  - apply (compareSemver_empty_nonneg x rel Hc).
Qed.

Lemma compareSemver_unmatched_witness :
  compareSemver "1.0.0" "2.0.0-beta" = compareSemver "1.0.0" ""
  /\ (0 <= fst (compareSemver "1.0.0" "2.0.0-beta"))%Z.
Proof.
  apply (compareSemver_unmatched "1.0.0" "2.0.0-beta").
  intros Hwf. apply (well_formed_not_empty _ Hwf). vm_compute. reflexivity.
Defined.

(** ** mkSemver: the first component that is too large *)

(** X8. On a well-formed tag [mkSemver] stops at the first component that
    does not fit in 32 bits: it returns the components before it together
    with the range error, and does not look at the components after it. *)
Theorem mkSemver_first_overflow
        (p : string) (pre : list string) (d : string) (post : list string)
        (vs : list Z) (v : Z) :
  Str.all notDigit p = true ->
  Forall2 (fun d v => ParseUint d = Some v /\ (v < 2 ^ 31)%Z) pre vs ->
  ParseUint d = Some v -> (2 ^ 31 <= v)%Z ->
  Forall digits post ->
  (length pre + 1 + length post <= 5)%nat ->
  mkSemver (p +:+ Join (pre ++ d :: post) ".")
  = (vs, Some (ErrParsePart (p +:+ Join (pre ++ d :: post) ".") ErrRange)).
Proof. exact (mkSemver_overflow p pre d post vs v). Qed.

Lemma mkSemver_first_overflow_witness :
  mkSemver ("v" +:+ Join (["1"; "2"] ++ "4294967296" :: ["7"]) ".")
  = ([1; 2]%Z,
     Some (ErrParsePart ("v" +:+ Join (["1"; "2"] ++ "4294967296" :: ["7"]) ".")
                        ErrRange)).
Proof.
  apply (mkSemver_first_overflow "v" ["1"; "2"] "4294967296" ["7"]
                                 [1; 2]%Z 4294967296%Z).
  - reflexivity.
  - repeat constructor.
  - reflexivity.
  - vm_compute. discriminate.
  - repeat constructor.
  - cbn. lia.
Defined.

(** ** parseRepo *)

Lemma runeWidth_ascii (c : ascii) (s : string) :
  (byte_val c < 128)%N -> Utf8.runeWidth (String c s) = 1%nat.
Proof.
  intros Hc. unfold Utf8.runeWidth. cbn [Utf8.byte_at String.get fmap option_fmap option_map].
  unfold Utf8.within at 1.
  destruct (N.leb_spec 0 (byte_val c)); [|lia].
  destruct (N.leb_spec (byte_val c) 127); [reflexivity|lia].
Qed.

Ltac fm_repo :=
  lazymatch goal with
  | |- first_match (Chr _) _ _ _ _ _ => apply fm_chr
  | |- first_match (StarCls _) _ _ _ _ _ =>
      apply fm_star; first [assumption | reflexivity]
  | |- first_match (Cat _ _) _ _ _ _ _ => eapply fm_cat; [fm_repo|fm_repo]
  | |- first_match (Group _ _ _) _ _ _ _ _ => eapply fm_group; fm_repo
  end.

Lemma repoRE_run (c : ascii) (owner project rest : string)
      (caps : list string) (k : Regexp.cont) (m : list string) :
  (byte_val c < 128)%N -> c <> newline ->
  Str.all notSlash owner = true -> Str.all notSlash project = true ->
  starts_outside notSlash rest = true ->
  k (11 + String.length (owner +:+ "/" +:+ project))%nat rest
    (<[2%nat := project]> (<[1%nat := owner]> caps)) = Some m ->
  Regexp.run repoRE 0
             ("github" +:+ String c "" +:+ "com/" +:+ owner +:+ "/"
              +:+ project +:+ rest) caps k
  = Some m.
Proof.
  intros Hc Hnl Ho Hp Hrest Hk. unfold repoRE.
  set (tail := (Group 1 "" (StarCls notSlash) :+: Chr "/"
                :+: Group 2 "" (StarCls notSlash))%re).
  cbn [lit Regexp.run Nat.eqb String.append]. rewrite !Ascii.eqb_refl.
  destruct (Ascii.eqb_spec c newline) as [|_]; [contradiction|].
  rewrite (runeWidth_ascii c _ Hc). cbn [Str.drop Regexp.run Nat.add].
  rewrite !Ascii.eqb_refl.
  change (String "/" (project +:+ rest)) with ("/" +:+ project +:+ rest).
  rewrite <- !StrFacts.app_assoc.
  rewrite (StrFacts.app_assoc owner "/" project).
  apply (FirstMatch.first_match_run tail 11 (owner +:+ "/" +:+ project) rest
           caps (<[2%nat := project]> (<[1%nat := owner]> caps)));
    [|exact Hk].
  unfold tail. fm_repo.
Qed.

Lemma parseRepo_segments (c : ascii) (owner project rest : string) :
  (byte_val c < 128)%N -> c <> newline ->
  Str.all notSlash owner = true -> Str.all notSlash project = true ->
  starts_outside notSlash rest = true ->
  parseRepo ("github" +:+ String c "" +:+ "com/" +:+ owner +:+ "/"
             +:+ project +:+ rest)
  = inr (owner, project).
Proof.
  intros Hc Hnl Ho Hp Hrest. unfold parseRepo, Regexp.FindStringSubmatch.
  cbn [Regexp.search].
  erewrite (repoRE_run c owner project rest _ _ _ Hc Hnl Ho Hp Hrest);
    [|reflexivity].
  reflexivity.
Qed.

(** X9. [parseRepo] accepts github.com/owner/project, alone or followed by
    further path segments, and returns the two segments; the byte between
    "github" and "com" may be any ASCII byte but a newline, the dot of the
    pattern not being escaped. *)
Theorem parseRepo_accepts (c : ascii) (owner project rest : string) :
  (byte_val c < 128)%N -> c <> newline ->
  Str.all notSlash owner = true -> Str.all notSlash project = true ->
  starts_outside notSlash rest = true ->
  parseRepo ("github" +:+ String c "" +:+ "com/" +:+ owner +:+ "/"
             +:+ project +:+ rest)
  = inr (owner, project).
Proof. exact (parseRepo_segments c owner project rest). Qed.

Lemma parseRepo_accepts_witness :
  parseRepo ("github" +:+ String "." "" +:+ "com/" +:+ "estk" +:+ "/"
             +:+ "sourcerer" +:+ "/tree/master")
  = inr ("estk", "sourcerer").
Proof.
  apply (parseRepo_accepts "." "estk" "sourcerer" "/tree/master");
    try reflexivity.
  discriminate.
Defined.

Lemma runeWidth_bounds (c : ascii) (s : string) :
  (1 <= Utf8.runeWidth (String c s) <= 4)%nat.
Proof.
  unfold Utf8.runeWidth. cbn [Utf8.byte_at String.get fmap option_fmap option_map].
  repeat match goal with
         | |- context [if ?b then _ else _] => destruct b
         end; lia.
Qed.

(** After [^] no later offset can match. *)
Lemma search_after_start (r : regex) (fuel : nat) :
  forall i s, i <> 0%nat -> Regexp.search fuel (Bot :+: r) i s = None.
Proof.
  induction fuel as [|fuel IH]; intros i s Hi; cbn [Regexp.search Regexp.run];
    [reflexivity|].
  destruct (Nat.eqb_spec i 0); [contradiction|].
  destruct s as [|c s]; [reflexivity|]. apply IH. lia.
Qed.

Lemma star_total (p : ascii -> bool) (s : string) :
  forall i (k : nat -> string -> option Regexp.captures),
    (forall j t, k j t <> None) -> Regexp.star p i s k <> None.
Proof.
  induction s as [|c s IH]; intros i k Hk; cbn [Regexp.star]; [apply Hk|].
  destruct (p c); [|apply Hk].
  destruct (Regexp.star p (S i) s k) eqn:Hs; [discriminate|].
  destruct (IH _ _ Hk Hs).
Qed.

(** In front of a continuation that always succeeds, [C*] takes the
    longest run of the class. *)
Lemma star_longest (p : ascii -> bool) (s : string) :
  forall i (k : nat -> string -> option Regexp.captures) m,
    (forall j t, k j t <> None) ->
    Regexp.star p i s k = Some m ->
    exists u t, s = u +:+ t /\ Str.all p u = true
                /\ starts_outside p t = true
                /\ k (i + String.length u)%nat t = Some m.
Proof.
  induction s as [|c s IH]; intros i k m Hk H; cbn [Regexp.star] in H.
  - exists "", "". rewrite Nat.add_0_r. auto.
  - destruct (p c) eqn:Hc.
    + destruct (Regexp.star p (S i) s k) as [m'|] eqn:Hs;
        [|destruct (star_total p s (S i) k Hk Hs)].
      destruct (IH _ _ _ Hk Hs) as (u & t & -> & Hu & Ht & Hku).
      exists (String c u), t. cbn. rewrite Hc, Hu, Nat.add_succ_r.
      inversion H; subst. auto.
    + exists "", (String c s). cbn. rewrite Hc, Nat.add_0_r. auto.
Qed.

(** The bytes that are taken as the first rune are one rune. *)
Lemma runeWidth_take (s : string) :
  Utf8.runeWidth (Str.take (Utf8.runeWidth s) s) = Utf8.runeWidth s.
Proof.
  remember (Utf8.runeWidth s) as w eqn:Hw.
  destruct s as [|c0 [|c1 [|c2 [|c3 s]]]];
    unfold Utf8.runeWidth in Hw |- *;
    cbn [Utf8.byte_at String.get fmap option_fmap option_map] in Hw;
    rewrite ?andb_false_r in Hw;
    repeat match type of Hw with
           | context [if ?b then _ else _] => destruct b eqn:?
           end;
    subst w;
    cbn [Str.take Utf8.byte_at String.get fmap option_fmap option_map];
    rewrite ?andb_false_r;
    repeat match goal with
           | H : ?b = _ |- context [?b] => rewrite H
           end;
    reflexivity.
Qed.

Lemma repoRE_run_inv (repo : string) (caps : list string) (k : Regexp.cont)
      (m : list string) :
  (forall j t caps', k j t caps' <> None) ->
  Regexp.run repoRE 0 repo caps k = Some m ->
  exists x owner project rest,
    repo = "github" +:+ x +:+ "com/" +:+ owner +:+ "/" +:+ project +:+ rest
    /\ (1 <= String.length x <= 4)%nat
    /\ Utf8.runeWidth x = String.length x
    /\ starts_outside (fun b => Ascii.eqb b newline) x = true
    /\ Str.all notSlash owner = true
    /\ Str.all notSlash project = true
    /\ starts_outside notSlash rest = true
    /\ exists j, k j rest (<[2%nat := project]> (<[1%nat := owner]> caps))
                 = Some m.
Proof.
  intros Hk H. unfold repoRE in H.
  cbn [lit Regexp.run Nat.eqb] in H.
  repeat match type of H with
         | match ?s with "" => None | String _ _ => _ end = Some _ =>
             is_var s; destruct s as [|? ?]; [discriminate|]
         | (if Ascii.eqb ?a ?b then _ else None) = Some _ =>
             destruct (Ascii.eqb_spec a b); [subst|discriminate]
         end.
  match type of H with
  | (if Ascii.eqb ?a newline then _ else _) = _ =>
      rename a into c0; destruct (Ascii.eqb c0 newline) eqn:Hnl;
      [discriminate|]
  end.
  pose proof (runeWidth_bounds c0 repo) as Hw.
  pose proof (runeWidth_le (String c0 repo)) as Hle.
  pose proof (StrFacts.take_drop (Utf8.runeWidth (String c0 repo))
                                 (String c0 repo)) as Hsplit.
  pose proof (StrFacts.length_take _ _ Hle) as Hlen.
  pose proof (runeWidth_take (String c0 repo)) as Hrune.
  set (w := Utf8.runeWidth (String c0 repo)) in *.
  destruct (Str.drop w (String c0 repo)) as [|c1 s1] eqn:Hdrop;
    [discriminate|].
  repeat match type of H with
         | match ?s with "" => None | String _ _ => _ end = Some _ =>
             is_var s; destruct s as [|? ?]; [discriminate|]
         | (if Ascii.eqb ?a ?b then _ else None) = Some _ =>
             destruct (Ascii.eqb_spec a b); [subst|discriminate]
         end.
  apply SyntaxFacts.star_sound in H as (owner & t1 & -> & Ho & H).
  destruct t1 as [|c2 t1]; [discriminate|].
  destruct (Ascii.eqb_spec "/" c2); [subst|discriminate].
  apply star_longest in H as (project & rest & -> & Hp & Hrest & H);
    [|intros; apply Hk].
  exists (Str.take w (String c0 repo)), owner, project, rest.
  repeat split; try assumption; try lia; try (rewrite Hlen; exact Hrune).
  - cbn [String.append]. do 6 f_equal.
    symmetry. exact Hsplit.
  - destruct w; [lia|]. cbn. rewrite Hnl. reflexivity.
  - eexists.
    match type of H with
    | context [Str.take ?n (project +:+ rest)] =>
        replace n with (String.length project) in H by lia
    end.
    match type of H with
    | context [Str.take ?n (owner +:+ ?t)] =>
        replace n with (String.length owner) in H by lia
    end.
    rewrite !StrFacts.take_app_length in H. exact H.
Qed.

Lemma drop_app_length (u t : string) : Str.drop (String.length u) (u +:+ t) = t.
Proof. induction u as [|c u IH]; cbn; [destruct t; reflexivity|exact IH]. Qed.

(** One rune in front of the byte c is still one rune. *)
Lemma runeWidth_before_c (x t : string) :
  Str.nonempty x = true -> Utf8.runeWidth x = String.length x ->
  Utf8.runeWidth (x +:+ String "c" t) = String.length x.
Proof.
  intros Hne Hw. pose proof (runeWidth_le x) as Hle.
  destruct x as [|c0 [|c1 [|c2 [|c3 [|c4 x]]]]]; [discriminate|..];
    cbn [String.length] in Hw |- *;
    try (destruct (runeWidth_bounds
                     c0 (String c1 (String c2 (String c3 (String c4 x)))));
         lia);
    rewrite <- Hw; revert Hw;
    unfold Utf8.runeWidth;
    cbn [String.append Utf8.byte_at String.get fmap option_fmap option_map];
    rewrite ?andb_false_r;
    repeat match goal with
           | |- context [if ?b then _ else _] => destruct b eqn:?
           end;
    intros Hw; try reflexivity; discriminate.
Qed.

Lemma parseRepo_one_rune (x owner project rest : string) :
  (1 <= String.length x)%nat ->
  Utf8.runeWidth x = String.length x ->
  starts_outside (fun b => Ascii.eqb b newline) x = true ->
  Str.all notSlash owner = true -> Str.all notSlash project = true ->
  starts_outside notSlash rest = true ->
  parseRepo ("github" +:+ x +:+ "com/" +:+ owner +:+ "/" +:+ project +:+ rest)
  = inr (owner, project).
Proof.
  intros Hlen Hw Hnl Ho Hp Hrest.
  assert (Hne : Str.nonempty x = true) by (destruct x; [cbn in Hlen; lia|reflexivity]).
  pose proof (runeWidth_before_c x ("om/" +:+ owner +:+ "/" +:+ project +:+ rest)
                                 Hne Hw) as Hwidth.
  pose proof (drop_app_length x ("com/" +:+ owner +:+ "/" +:+ project +:+ rest))
    as Hdrop.
  unfold parseRepo, Regexp.FindStringSubmatch. cbn [Regexp.search].
  unfold repoRE.
  set (tail := (Group 1 "" (StarCls notSlash) :+: Chr "/"
                :+: Group 2 "" (StarCls notSlash))%re).
  set (caps := replicate _ "").
  set (k := fun (j : nat) (_ : string) (c : Regexp.captures) => Some _).
  destruct x as [|c0 x']; [discriminate|].
  cbn in Hnl. apply negb_true_iff in Hnl.
  cbn [String.append] in Hwidth, Hdrop.
  cbn [lit Regexp.run Nat.eqb String.append]. rewrite !Ascii.eqb_refl, Hnl.
  rewrite Hwidth, Hdrop. cbn [Regexp.run]. rewrite !Ascii.eqb_refl.
  change (String "/" (project +:+ rest)) with ("/" +:+ project +:+ rest).
  rewrite <- !StrFacts.app_assoc.
  rewrite (StrFacts.app_assoc owner "/" project).
  erewrite (FirstMatch.first_match_run tail _ (owner +:+ "/" +:+ project) rest
              caps (<[2%nat := project]> (<[1%nat := owner]> caps)));
    [|unfold tail; fm_repo|reflexivity].
  reflexivity.
Qed.

(** X10. [parseRepo] succeeds with an owner and a project exactly when the
    reference is "github", one rune that is not a newline (a text of 1 to 4
    bytes that UTF-8 decoding takes whole as its first rune), "com/", the
    owner, a slash, the project and a rest that is empty or starts with a
    slash, the owner and the project holding no slash. *)
Theorem parseRepo_inversion (repo owner project : string) :
  parseRepo repo = inr (owner, project) <->
  exists x rest,
    repo = "github" +:+ x +:+ "com/" +:+ owner +:+ "/" +:+ project +:+ rest
    /\ (1 <= String.length x <= 4)%nat
    /\ Utf8.runeWidth x = String.length x
    /\ starts_outside (fun b => Ascii.eqb b newline) x = true
    /\ Str.all notSlash owner = true
    /\ Str.all notSlash project = true
    /\ starts_outside notSlash rest = true.
Proof.
  split.
  - unfold parseRepo, Regexp.FindStringSubmatch. cbn [Regexp.search].
    destruct (Regexp.run repoRE 0 repo _ _) as [m|] eqn:Hrun.
    + apply repoRE_run_inv in Hrun
        as (x & o & p & rest & -> & Hx & Hrune & Hnl & Ho & Hp & Hrest & j & Hm);
        [|discriminate].
      inversion Hm; subst m. cbn. intros H; inversion H; subst.
      exists x, rest. repeat split; try assumption; try reflexivity; lia.
    + destruct repo as [|c s]; [discriminate|].
      unfold repoRE. rewrite search_after_start; [discriminate|].
      pose proof (runeWidth_bounds c s). lia.
  - intros (x & rest & -> & [Hx _] & Hrune & Hnl & Ho & Hp & Hrest).
    apply parseRepo_one_rune; assumption.
Qed.

Lemma parseRepo_inversion_witness :
  exists x rest,
    "github.com/foo/bar/baz"
    = "github" +:+ x +:+ "com/" +:+ "foo" +:+ "/" +:+ "bar" +:+ rest
    /\ (1 <= String.length x <= 4)%nat
    /\ Utf8.runeWidth x = String.length x
    /\ starts_outside (fun b => Ascii.eqb b newline) x = true
    /\ Str.all notSlash "foo" = true
    /\ Str.all notSlash "bar" = true
    /\ starts_outside notSlash rest = true.
Proof.
  apply (proj1 (parseRepo_inversion "github.com/foo/bar/baz" "foo" "bar")).
  vm_compute. reflexivity.
Defined.

(** ** validateConfig: the first offence *)

Lemma validateConfig_loop_app (a b : list SourceEntry) :
  validateConfig_loop (a ++ b)
  = match validateConfig_loop a with
    | Some err => Some err
    | None => validateConfig_loop b
    end.
Proof.
  induction a as [|e a IH]; cbn [app validateConfig_loop]; [reflexivity|].
  destruct (Str.nonempty (URL e) && Str.nonempty (Repo e)); [reflexivity|].
  destruct (Str.nonempty (Repo e) && negb (Str.nonempty (Tag e)));
    [reflexivity|exact IH].
Qed.

(** X11. [validateConfig] reports the first entry that offends, whatever
    follows it: with the error of a url together with a repo when both are
    set, with the error of the missing tag when the repo is set alone and
    the tag is empty. *)
Theorem validateConfig_first_offence
        (pre : list SourceEntry) (e : SourceEntry) (post : list SourceEntry) :
  validateConfig (mkConfig pre) = None ->
  (URL e <> "" /\ Repo e <> "" ->
   validateConfig (mkConfig (pre ++ e :: post)) = Some ErrUrlAndRepo)
  /\ (URL e = "" /\ Repo e <> "" /\ Tag e = "" ->
      validateConfig (mkConfig (pre ++ e :: post)) = Some ErrRepoWithoutTag).
Proof.
  unfold validateConfig. cbn [Sources]. intros Hpre.
  rewrite validateConfig_loop_app, Hpre. cbn [validateConfig_loop]. split.
  - intros [Hu Hr]. apply nonempty_true in Hu, Hr. rewrite Hu, Hr. reflexivity.
  - intros (Hu & Hr & Ht). apply nonempty_true in Hr.
    rewrite Hu, Hr, Ht. reflexivity.
Qed.

Lemma validateConfig_first_offence_witness :
  validateConfig
    (mkConfig ([mkEntry "github.com/foo/bar" "1.0.0" ""]
               ++ mkEntry "github.com/foo/baz" "2" "https://example.org/x"
               :: [mkEntry "github.com/foo/qux" "" ""]))
  = Some ErrUrlAndRepo
  /\ validateConfig
       (mkConfig ([mkEntry "" "" "https://example.org/x"]
                  ++ mkEntry "github.com/foo/qux" "" "" :: []))
     = Some ErrRepoWithoutTag.
Proof.
  split.
  - apply (proj1 (validateConfig_first_offence
                    [mkEntry "github.com/foo/bar" "1.0.0" ""]
                    (mkEntry "github.com/foo/baz" "2" "https://example.org/x")
                    [mkEntry "github.com/foo/qux" "" ""] eq_refl)).
    split; discriminate.
  - apply (proj2 (validateConfig_first_offence
                    [mkEntry "" "" "https://example.org/x"]
                    (mkEntry "github.com/foo/qux" "" "") [] eq_refl)).
    repeat split. discriminate.
Defined.

(** ** searchForManifests: an error of the walk *)

Lemma walk_error (visits : list Visit) :
  Exists (fun v => walkErr v <> None) visits ->
  forall manifests, walk visits manifests = None.
Proof.
  induction 1 as [v rest Herr|v rest _ IH]; intros manifests; cbn [walk].
  - unfold visit. destruct (walkErr v) as [err|]; [|congruence].
    destruct (Str.HasSuffix _ _); [|reflexivity].
    destruct (info v) as [f|]; [|reflexivity].
    destruct (negb (IsDir f)); reflexivity.
  - destruct (visit v manifests) as [[manifests' [err|]]|]; try reflexivity.
    apply IH.
Qed.

(** X12. An error met anywhere in the walk makes [searchForManifests] panic:
    no manifest is returned, not even those found before the error. *)
Theorem searchForManifests_walk_error (visits : list Visit) :
  Exists (fun v => walkErr v <> None) visits ->
  searchForManifests visits = None.
Proof. intros H. apply (walk_error visits H). Qed.

Lemma searchForManifests_walk_error_witness :
  searchForManifests
    [mkVisit "." (Some (mkInfo true)) None;
     mkVisit "SOURCES" (Some (mkInfo false)) None;
     mkVisit "private" (Some (mkInfo true)) (Some "permission denied")]
  = None.
Proof.
  apply searchForManifests_walk_error.
  apply Exists_cons_tl, Exists_cons_tl, Exists_cons_hd. discriminate.
Defined.

(** ** checkEntry and checkNewer: counts, colours, raw urls *)

Section MoreReconciliation.

Variable lookup : list Event -> string -> LookupOutcome.

Lemma checkEntry_extends (e : SourceEntry) (log : list Event) :
  log `prefix_of` snd (checkEntry lookup e log).
Proof.
  unfold checkEntry.
  destruct (Str.nonempty (URL e)); cbn [snd]; [reflexivity|].
  destruct (parseRepo (Repo e)) as [err|[owner gitrepo]]; cbn [snd];
    [reflexivity|].
  destruct (lookup log _) as [c|c|c b|gitObj]; cbn [snd];
    try (apply prefix_app_r; reflexivity).
  destruct (map_index gitObj "name") as [raw|]; cbn [snd];
    [|apply prefix_app_r; reflexivity].
  destruct (compareSemver _ _) as [rel [err|]]; cbn [snd];
    [rewrite <- app_assoc; apply prefix_app_r; reflexivity|].
  destruct (rel <? 0)%Z; cbn [snd]; rewrite <- app_assoc;
    apply prefix_app_r; reflexivity.
Qed.

Lemma checkNewer_loop_counts (es : list SourceEntry) :
  forall acc log,
    let '((msgs, err), log') := checkNewer_loop lookup es acc log in
    (err = None -> length msgs = (length acc + length es)%nat)
    /\ (err <> None -> (length msgs < length acc + length es)%nat)
    /\ (lookups log' <= lookups log + length es)%nat
    /\ log `prefix_of` log'
    /\ (Forall (fun m => colour m <> Red) acc ->
        Forall (fun m => colour m <> Red) msgs).
Proof.
  induction es as [|e es IH]; intros acc log; cbn [checkNewer_loop].
  - repeat split; try congruence; try reflexivity; cbn; try lia; auto.
  - pose proof (checkEntry_lookups lookup e log) as Hl.
    pose proof (checkEntry_extends e log) as Hp.
    pose proof (checkEntry_never_newer lookup e log) as Hred.
    destruct (checkEntry lookup e log) as [[err|m] log1]; cbn [snd] in Hl, Hp.
    + repeat split; try congruence; cbn [length]; try lia; auto.
    + specialize (IH (acc ++ [m]) log1).
      destruct (checkNewer_loop lookup es (acc ++ [m]) log1)
        as [[msgs err] log'].
      destruct IH as (Hn & Hs & Hlk & Hpre & Hcol).
      rewrite length_app in Hn, Hs. cbn [length] in *.
      repeat split.
      * intros He. rewrite (Hn He). lia.
      * intros He. specialize (Hs He). lia.
      * lia.
      * etransitivity; eassumption.
      * intros Hacc. apply Hcol, Forall_app. split; [exact Hacc|].
        constructor; [|constructor]. apply (Hred m log1 eq_refl).
Qed.

End MoreReconciliation.

(** X13. [checkNewer] returns one message per entry when it returns no
    error and fewer messages than entries when it returns one; it makes at
    most one lookup per entry, and only adds to the record of what
    happened. *)
Theorem checkNewer_counts
        (lookup : list Event -> string -> LookupOutcome)
        (config : Config) (log : list Event) :
  (snd (fst (checkNewer lookup config log)) = None ->
   length (fst (fst (checkNewer lookup config log)))
   = length (Sources config))
  /\ (snd (fst (checkNewer lookup config log)) <> None ->
      (length (fst (fst (checkNewer lookup config log)))
       < length (Sources config))%nat)
  /\ (lookups (snd (checkNewer lookup config log))
      <= lookups log + length (Sources config))%nat
  /\ log `prefix_of` snd (checkNewer lookup config log).
Proof.
  unfold checkNewer.
  pose proof (checkNewer_loop_counts lookup (Sources config) [] log) as H.
  destruct (checkNewer_loop lookup (Sources config) [] log)
    as [[msgs err] log'].
  destruct H as (Hn & Hs & Hl & Hp & _). cbn [length Nat.add fst snd] in *.
  auto.
Qed.

Lemma checkNewer_counts_witness :
  length (fst (fst (checkNewer
                      (fun _ _ => Decoded ∅)
                      (mkConfig [mkEntry "" "" "https://example.org/a.tgz";
                                 mkEntry "github.com/foo/bar" "1.0.0" ""])
                      [])))
  = 2%nat
  /\ (length (fst (fst (checkNewer
                          (fun _ _ => GetFailed "offline")
                          (mkConfig [mkEntry "" "" "https://example.org/a.tgz";
                                     mkEntry "github.com/foo/bar" "1.0.0" ""])
                          [])))
      < 2)%nat.
Proof.
  split.
  - apply (proj1 (checkNewer_counts
                    (fun _ _ => Decoded ∅)
                    (mkConfig [mkEntry "" "" "https://example.org/a.tgz";
                               mkEntry "github.com/foo/bar" "1.0.0" ""]) [])).
    vm_compute. reflexivity.
  - apply (proj1 (proj2 (checkNewer_counts
                    (fun _ _ => GetFailed "offline")
                    (mkConfig [mkEntry "" "" "https://example.org/a.tgz";
                               mkEntry "github.com/foo/bar" "1.0.0" ""]) []))).
    vm_compute. discriminate.
Defined.

(** X14. No message that [checkNewer] returns is red: since the tag compared
    against is always empty, a newer version is never reported, whatever the
    lookups answer. *)
Theorem checkNewer_never_red
        (lookup : list Event -> string -> LookupOutcome)
        (config : Config) (log : list Event) :
  Forall (fun m => colour m <> Red) (fst (fst (checkNewer lookup config log))).
Proof.
  unfold checkNewer.
  pose proof (checkNewer_loop_counts lookup (Sources config) [] log) as H.
  destruct (checkNewer_loop lookup (Sources config) [] log)
    as [[msgs err] log'].
  destruct H as (_ & _ & _ & _ & Hcol). apply Hcol. constructor.
Qed.

Lemma checkNewer_loop_raw (lookup : list Event -> string -> LookupOutcome)
      (es : list SourceEntry) :
  Forall (fun e => URL e <> "") es ->
  forall acc log,
    checkNewer_loop lookup es acc log
    = ((acc ++ ((fun e => msgRawURL (URL e)) <$> es), None), log).
Proof.
  induction 1 as [|e es He _ IH]; intros acc log; cbn [checkNewer_loop].
  - cbn. rewrite app_nil_r. reflexivity.
  - unfold checkEntry. apply nonempty_true in He. rewrite He.
    rewrite IH. cbn [fmap list_fmap]. rewrite <- app_assoc. reflexivity.
Qed.

(** X15. On a manifest made of raw urls only, [checkNewer] makes no lookup
    and no comparison, whatever the entries say otherwise: it returns, in
    order, the plain message that the url cannot be checked, and no
    error. *)
Theorem checkNewer_raw_urls
        (lookup : list Event -> string -> LookupOutcome)
        (config : Config) (log : list Event) :
  Forall (fun e => URL e <> "") (Sources config) ->
  checkNewer lookup config log
  = (((fun e => msgRawURL (URL e)) <$> Sources config, None), log).
Proof.
  intros H. unfold checkNewer.
  rewrite (checkNewer_loop_raw lookup _ H). reflexivity.
Qed.

Lemma checkNewer_raw_urls_witness :
  checkNewer (fun _ _ => GetFailed "offline")
             (mkConfig [mkEntry "" "" "https://example.org/a.tgz";
                        mkEntry "not a repo" "" "https://example.org/b.tgz"])
             []
  = (([mkMsg Plain "Raw url specified, cannot check for currency: https://example.org/a.tgz";
       mkMsg Plain "Raw url specified, cannot check for currency: https://example.org/b.tgz"],
      None), []).
Proof.
  apply (checkNewer_raw_urls
           (fun _ _ => GetFailed "offline")
           (mkConfig [mkEntry "" "" "https://example.org/a.tgz";
                      mkEntry "not a repo" "" "https://example.org/b.tgz"]) []).
  repeat constructor; discriminate.
Defined.

(** X16. The errors of reading and of decoding the answer name the field
    [URL] of the entry, which is empty whenever a lookup is made: they never
    carry the address that was fetched. *)
Theorem checkEntry_body_errors_name_no_url
        (lookup : list Event -> string -> LookupOutcome)
        (e : SourceEntry) (log : list Event) :
  match fst (checkEntry lookup e log) with
  | inl (ErrReadBody url _) | inl (ErrParseBody url _ _) => url = ""
  | _ => True
  end.
Proof.
  unfold checkEntry.
  destruct (Str.nonempty (URL e)) eqn:Hurl; cbn [fst]; [exact I|].
  apply nonempty_false in Hurl. rewrite Hurl. unfold parseRepo.
  destruct (negb _); cbn [fst]; [exact I|].
  destruct (lookup log _) as [c|c|c b|gitObj]; cbn [fst];
    try reflexivity; try exact I.
  destruct (map_index gitObj "name") as [raw|]; cbn [fst]; [|exact I].
  unfold compareSemver.
  destruct (mkSemver (Tag e)) as [xs [e1|]],
    (mkSemver (json_Unmarshal_by_value raw "")) as [ys [e2|]]; cbn [fst];
    try exact I.
  destruct (_ <? 0)%Z; exact I.
Qed.

(** ** handleManifest *)

Section ManifestProperties.

Variable readFile : string -> string + string.
Variable yamlUnmarshal : string -> Config * option string.
Variable lookup : list Event -> string -> LookupOutcome.

Lemma validateConfig_loop_ok (es : list SourceEntry) :
  validateConfig_loop es = None -> Forall entry_ok es.
Proof.
  induction es as [|e es IH]; cbn [validateConfig_loop]; intros H;
    [constructor|].
  destruct (Str.nonempty (URL e) && Str.nonempty (Repo e)) eqn:Hboth;
    [discriminate|].
  destruct (Str.nonempty (Repo e) && negb (Str.nonempty (Tag e))) eqn:Htag;
    [discriminate|].
  constructor; [|apply IH, H]. split.
  - intros [Hr Hu]. apply nonempty_true in Hr, Hu.
    rewrite Hr, Hu in Hboth. discriminate.
  - intros Hr Ht. apply nonempty_true in Hr. rewrite Hr, Ht in Htag.
    discriminate.
Qed.

Lemma parseConfig_ok (filename : string) (config : Config) :
  parseConfig readFile yamlUnmarshal filename = (config, None) ->
  exists data,
    readFile filename = inr data
    /\ yamlUnmarshal data = (config, None)
    /\ Forall entry_ok (Sources config).
Proof.
  unfold parseConfig. destruct (readFile filename) as [c|data]; [discriminate|].
  destruct (yamlUnmarshal data) as [conf [c|]] eqn:Hy; [discriminate|].
  destruct (validateConfig conf) eqn:Hv; [discriminate|].
  intros H; inversion H; subst. exists data.
  split; [reflexivity|]. split; [exact Hy|].
  apply validateConfig_loop_ok, Hv.
Qed.

End ManifestProperties.

(** X17. Whatever [handleManifest] prints comes from a file that was read,
    decoded and validated: every entry of the configuration has passed
    [validateConfig], there is one message per entry, and none is red. *)
Theorem handleManifest_printed
        (readFile : string -> string + string)
        (yamlUnmarshal : string -> Config * option string)
        (lookup : list Event -> string -> LookupOutcome)
        (filename : string) (log : list Event)
        (msgs : list Msg) (log' : list Event) :
  handleManifest readFile yamlUnmarshal lookup filename log
  = (Printed msgs, log') ->
  exists data config,
    readFile filename = inr data
    /\ yamlUnmarshal data = (config, None)
    /\ Forall entry_ok (Sources config)
    /\ checkNewer lookup config log = ((msgs, None), log')
    /\ length msgs = length (Sources config)
    /\ Forall (fun m => colour m <> Red) msgs.
Proof.
  unfold handleManifest.
  destruct (parseConfig readFile yamlUnmarshal filename) as [conf [err|]]
    eqn:Hparse; [discriminate|].
  destruct (parseConfig_ok _ _ _ _ Hparse) as (data & Hread & Hyaml & Hok).
  unfold checkNewer.
  pose proof (checkNewer_loop_counts lookup (Sources conf) [] log) as Hc.
  destruct (checkNewer_loop lookup (Sources conf) [] log)
    as [[ms [err|]] l] eqn:Hrun; [discriminate|].
  destruct Hc as (Hn & _ & _ & _ & Hred).
  intros H; inversion H; subst. exists data, conf.
  split; [exact Hread|]. split; [exact Hyaml|]. split; [exact Hok|].
  split; [exact Hrun|]. split; [apply Hn; reflexivity|].
  apply Hred. constructor.
Qed.

Lemma handleManifest_printed_witness :
  exists data config,
    (fun _ : string => @inr string string "Sources: [{URL: x}]") "SOURCES"
    = inr data
    /\ (fun _ : string => (mkConfig [mkEntry "" "" "x"], @None string)) data
       = (config, None)
    /\ Forall entry_ok (Sources config)
    /\ checkNewer (fun _ _ => GetFailed "offline") config []
       = (([msgRawURL "x"], None), [])
    /\ length [msgRawURL "x"] = length (Sources config)
    /\ Forall (fun m => colour m <> Red) [msgRawURL "x"].
Proof.
  apply (handleManifest_printed
           (fun _ => inr "Sources: [{URL: x}]")
           (fun _ => (mkConfig [mkEntry "" "" "x"], None))
           (fun _ _ => GetFailed "offline") "SOURCES" []).
  reflexivity.
Defined.

(** X18. [handleManifest] prints all or nothing: when the configuration is
    accepted and [checkEntry] fails on one entry, it panics with that
    error, and the messages of the entries before it are never printed. *)
Theorem handleManifest_all_or_nothing
        (readFile : string -> string + string)
        (yamlUnmarshal : string -> Config * option string)
        (lookup : list Event -> string -> LookupOutcome)
        (filename : string) (log : list Event)
        (pre : list SourceEntry) (e : SourceEntry) (post : list SourceEntry)
        (msgs : list Msg) (log1 : list Event) (err : error)
        (log2 : list Event) :
  parseConfig readFile yamlUnmarshal filename
  = (mkConfig (pre ++ e :: post), None) ->
  entries_ok lookup pre log msgs log1 ->
  checkEntry lookup e log1 = (inl err, log2) ->
  handleManifest readFile yamlUnmarshal lookup filename log
  = (Panicked (inr err), log2).
Proof.
  intros Hparse Hok He. unfold handleManifest, checkNewer.
  rewrite Hparse. cbn [Sources].
  destruct (checkNewer_loop_stops lookup pre e post log msgs log1 err log2 []
              Hok He) as (-> & _).
  reflexivity.
Qed.

Lemma handleManifest_all_or_nothing_witness :
  handleManifest
    (fun _ => inr "yaml")
    (fun _ => (mkConfig ([mkEntry "" "" "https://example.org/a.tgz"]
                         ++ mkEntry "gitlab.com/foo/bar" "1.0" "" :: []),
               None))
    (fun _ _ => Decoded ∅) "SOURCES" []
  = (Panicked (inr (ErrParseRepo "gitlab.com/foo/bar" [])), []).
Proof.
  apply (handleManifest_all_or_nothing
           (fun _ => inr "yaml")
           (fun _ => (mkConfig ([mkEntry "" "" "https://example.org/a.tgz"]
                                ++ mkEntry "gitlab.com/foo/bar" "1.0" "" :: []),
                      None))
           (fun _ _ => Decoded ∅) "SOURCES" []
           [mkEntry "" "" "https://example.org/a.tgz"]
           (mkEntry "gitlab.com/foo/bar" "1.0" "") []
           [msgRawURL "https://example.org/a.tgz"] []).
  - reflexivity.
  - eapply entries_ok_cons; [reflexivity|apply entries_ok_nil].
  - vm_compute. reflexivity.
Defined.

(** ** The address looked up, and the paths returned *)

(** X19. For an entry without a raw url whose reference is
    github.com/owner/project, alone or followed by further path segments,
    [checkEntry] makes exactly one lookup, of the latest release of
    owner/project: the further segments play no part. *)
Theorem checkEntry_lookup_address
        (lookup : list Event -> string -> LookupOutcome)
        (e : SourceEntry) (log : list Event) (owner project rest : string) :
  URL e = "" ->
  Repo e = "github.com/" +:+ owner +:+ "/" +:+ project +:+ rest ->
  Str.all notSlash owner = true -> Str.all notSlash project = true ->
  starts_outside notSlash rest = true ->
  exists tail,
    snd (checkEntry lookup e log)
    = log ++ EvGet ("https://api.github.com/repos/" +:+ owner +:+ "/"
                    +:+ project +:+ "/releases/latest") :: tail
    /\ lookups tail = 0%nat.
Proof.
  intros Hurl Hrepo Ho Hp Hrest. unfold checkEntry.
  rewrite Hurl, Hrepo. cbn [Str.nonempty].
  change ("github.com/" +:+ owner +:+ "/" +:+ project +:+ rest)
    with ("github" +:+ String "." "" +:+ "com/" +:+ owner +:+ "/"
          +:+ project +:+ rest).
  rewrite (parseRepo_segments "." owner project rest);
    [|reflexivity|discriminate|assumption..].
  fold (releasesURL owner project).
  destruct (lookup log _) as [c|c|c b|gitObj]; cbn [snd];
    try (exists []; split; reflexivity).
  destruct (map_index gitObj "name") as [raw|]; cbn [snd];
    [|exists []; split; reflexivity].
  destruct (compareSemver _ _) as [rel [err|]]; cbn [snd];
    [eexists; rewrite <- app_assoc; split; reflexivity|].
  destruct (rel <? 0)%Z; cbn [snd]; eexists; rewrite <- app_assoc;
    split; reflexivity.
Qed.

Lemma checkEntry_lookup_address_witness :
  exists tail,
    snd (checkEntry (fun _ _ => Decoded ∅)
                    (mkEntry ("github.com/" +:+ "estk" +:+ "/" +:+ "sourcerer"
                              +:+ "/tree/master") "1.0" "") [])
    = [] ++ EvGet ("https://api.github.com/repos/" +:+ "estk" +:+ "/"
                   +:+ "sourcerer" +:+ "/releases/latest") :: tail
    /\ lookups tail = 0%nat.
Proof.
  apply (checkEntry_lookup_address
           (fun _ _ => Decoded ∅)
           (mkEntry ("github.com/" +:+ "estk" +:+ "/" +:+ "sourcerer"
                     +:+ "/tree/master") "1.0" "") []
           "estk" "sourcerer" "/tree/master");
    reflexivity.
Defined.

Lemma HasSuffix_split (s suffix : string) :
  Str.HasSuffix s suffix = true -> exists q, s = q +:+ suffix.
Proof.
  unfold Str.HasSuffix. intros [_ Heq%String.eqb_eq]%andb_true_iff.
  set (n := (String.length s - String.length suffix)%nat) in *.
  exists (Str.take n s). rewrite <- Heq. symmetry. apply StrFacts.take_drop.
Qed.

Lemma walk_paths (visits : list Visit) :
  forall manifests out,
    walk visits manifests = Some out ->
    exists found,
      out = manifests ++ found
      /\ Forall (fun p => (exists q, p = q +:+ manifestName)
                          /\ exists v, v ∈ visits /\ path v = p
                                       /\ info v = Some (mkInfo false))
                found.
Proof.
  induction visits as [|v rest IH]; intros manifests out; cbn [walk].
  - intros H; inversion H; subst. exists []. rewrite app_nil_r.
    split; [reflexivity|constructor].
  - unfold visit.
    destruct (Str.HasSuffix (path v) manifestName) eqn:Hsuf.
    + destruct (info v) as [[[|]]|] eqn:Hinfo; cbn [IsDir negb];
        try discriminate;
        (destruct (walkErr v); [discriminate|]); intros H;
        destruct (IH _ _ H) as (found & -> & Hfound).
      * exists found. split; [reflexivity|].
        eapply Forall_impl; [exact Hfound|].
        intros p (Hq & w & Hw & Hp & Hi). split; [exact Hq|].
        exists w. split; [right; exact Hw|auto].
      * exists (path v :: found). split; [rewrite <- app_assoc; reflexivity|].
        constructor.
        -- split; [apply HasSuffix_split, Hsuf|].
           exists v. split; [left|auto].
        -- eapply Forall_impl; [exact Hfound|].
           intros p (Hq & w & Hw & Hp & Hi). split; [exact Hq|].
           exists w. split; [right; exact Hw|auto].
    + destruct (walkErr v); [discriminate|]. intros H.
      destruct (IH _ _ H) as (found & -> & Hfound).
      exists found. split; [reflexivity|].
      eapply Forall_impl; [exact Hfound|].
      intros p (Hq & w & Hw & Hp & Hi). split; [exact Hq|].
      exists w. split; [right; exact Hw|auto].
Qed.

(** X20. Whenever [searchForManifests] returns, every path it returns is some
    text followed by the manifest name, and is the path of a visit of a file
    that is not a directory. *)
Theorem searchForManifests_paths (visits : list Visit) (out : list string) :
  searchForManifests visits = Some out ->
  Forall (fun p => (exists q, p = q +:+ manifestName)
                   /\ exists v, v ∈ visits /\ path v = p
                                /\ info v = Some (mkInfo false))
         out.
Proof.
  intros H. destruct (walk_paths visits [] out H) as (found & -> & Hfound).
  exact Hfound.
Qed.

Lemma searchForManifests_paths_witness :
  Forall (fun p => (exists q, p = q +:+ manifestName)
                   /\ exists v,
                       v ∈ [mkVisit "a" (Some (mkInfo true)) None;
                            mkVisit "a/OLDSOURCES" (Some (mkInfo false)) None]
                       /\ path v = p /\ info v = Some (mkInfo false))
         ["a/OLDSOURCES"].
Proof.
  apply (searchForManifests_paths
           [mkVisit "a" (Some (mkInfo true)) None;
            mkVisit "a/OLDSOURCES" (Some (mkInfo false)) None]).
  reflexivity.
Defined.
